(** * Syncme::ThreadPool::Pool — a shallow embedding of Pool.cpp

    The pool keeps two lists of shared worker references ([All], [Unused]),
    a shared waitable timer, a stopping flag and two events; six process-wide
    diagnostic counters live next to it.  Every member function of
    [Pool.cpp] is a function on the record [Pool] below.  A call that reaches
    undefined behaviour (a null [WorkerPtr] dereferenced, a signed overflow)
    or a failing [assert] ends in [Crash]; everything else ends in [Ok].

    One critical section ([LOCK_GUARD] ... end of scope) is one function
    application: the model is sequential, and what other threads do while a
    caller is blocked in [WaitForMultipleObjects] is given by a script of
    environment steps. *)

From stdpp Require Import base list gmap.
From Stdlib Require Import ZArith Lia.

(** ** Results of calls *)

Inductive Assertion :=
  | A_SetMaxThreads_positive     (* assert(n > 0)                       *)
  | A_Stop_sizes                 (* assert(All.size() == Unused.size()) *)
  | A_StopExpired_found.         (* assert(ita != All.end())            *)

Inductive Fault :=
  | NullDeref                    (* t->Invoke(...) on an empty WorkerPtr *)
  | SignedOverflow               (* 4 * MaxIdleTime outside long         *)
  | AssertionFailed (a : Assertion)
  | OutOfFuel.                   (* never produced, see sweep_spec       *)

Inductive Res (A : Type) :=
  | Ok (a : A)
  | Crash (f : Fault).
Arguments Ok {A} a.
Arguments Crash {A} f.

Definition bind {A B} (m : Res A) (k : A → Res B) : Res B :=
  match m with
  | Ok a => k a
  | Crash f => Crash f
  end.

Notation "'let!' x := m 'in' k" := (bind m (λ x, k))
  (at level 10, x name, m at level 200, k at level 200,
   format "'[v' 'let!'  x  :=  m  'in' '/' k ']'").

(** ** Data model *)

Inductive OVERFLOW_MODE := WAIT | FAIL.

(** Modelled from the spec: the enum WAIT_RESULT of the wait-for-any
    primitive is declared outside Pool.cpp.  [OBJECT_0] is the first handle
    of the array (the stop event), [OBJECT_1] the second (the free event). *)
Inductive WAIT_RESULT := OBJECT_0 | OBJECT_1 | TIMEOUT | FAILED.

(** A [Worker*] / [WorkerPtr] is the address of the worker object. *)
Abbreviation Worker := positive (only parsing).
Abbreviation HEvent := positive (only parsing).

(** Modelled from the spec: class Worker is declared outside Pool.cpp.  The
    pool only uses Stop, SetExpireTimer, CancelExpireTimer and IsExpired; a
    worker object is the number of Stop calls it has received and its
    expiry deadline (absolute time), if one is armed. *)
Record WorkerState := {
  StopCalls : nat;
  ExpiresAt : option Z
}.

Definition new_Worker : WorkerState := {| StopCalls := 0; ExpiresAt := None |}.

(** The members of Pool, the six counters of the namespace, and what the
    pool sees of the world: the worker objects and the clock.  Lock and
    Owner are not part of the state: a critical section is one step. *)
Record Pool := {
  (* configuration *)
  MaxUnusedThreads : nat;
  MaxThreads : nat;
  MaxIdleTime : Z;
  Mode : OVERFLOW_MODE;
  (* pool state *)
  Timer : option Z;          (* due time the shared timer is armed with *)
  Stopping : bool;
  All : list Worker;
  Unused : list Worker;
  FreeEvent : nat;           (* number of SetEvent(FreeEvent) calls *)
  StopEvent : bool;          (* sticky *)
  (* namespace-level atomic counters *)
  ThreadsTotal : Z;
  ThreadsUnused : Z;
  ThreadsStopped : Z;
  LockedInRun : Z;
  OnTimerCalls : Z;
  Errors : Z;
  (* the world around the pool *)
  Workers : gmap Worker WorkerState;
  Now : Z
}.

Definition MAX_UNUSED_THREADS : nat := 12.
Definition MAX_THREADS : nat := 100.
Definition MAX_IDLE_TIME : Z := 3000.

(** Pool::Pool() *)
Definition Pool_new (now : Z) : Pool := {|
  MaxUnusedThreads := MAX_UNUSED_THREADS;
  MaxThreads := MAX_THREADS;
  MaxIdleTime := MAX_IDLE_TIME;
  Mode := WAIT;
  Timer := None;
  Stopping := false;
  All := [];
  Unused := [];
  FreeEvent := 0;
  StopEvent := false;
  ThreadsTotal := 0;
  ThreadsUnused := 0;
  ThreadsStopped := 0;
  LockedInRun := 0;
  OnTimerCalls := 0;
  Errors := 0;
  Workers := ∅;
  Now := now
|}.

(** *** Field updates *)

Definition with_MaxUnusedThreads (v : nat) (p : Pool) : Pool :=
  Build_Pool v (MaxThreads p) (MaxIdleTime p) (Mode p) (Timer p) (Stopping p)
    (All p) (Unused p) (FreeEvent p) (StopEvent p) (ThreadsTotal p)
    (ThreadsUnused p) (ThreadsStopped p) (LockedInRun p) (OnTimerCalls p)
    (Errors p) (Workers p) (Now p).

Definition with_MaxThreads (v : nat) (p : Pool) : Pool :=
  Build_Pool (MaxUnusedThreads p) v (MaxIdleTime p) (Mode p) (Timer p)
    (Stopping p) (All p) (Unused p) (FreeEvent p) (StopEvent p)
    (ThreadsTotal p) (ThreadsUnused p) (ThreadsStopped p) (LockedInRun p)
    (OnTimerCalls p) (Errors p) (Workers p) (Now p).

Definition with_MaxIdleTime (v : Z) (p : Pool) : Pool :=
  Build_Pool (MaxUnusedThreads p) (MaxThreads p) v (Mode p) (Timer p)
    (Stopping p) (All p) (Unused p) (FreeEvent p) (StopEvent p)
    (ThreadsTotal p) (ThreadsUnused p) (ThreadsStopped p) (LockedInRun p)
    (OnTimerCalls p) (Errors p) (Workers p) (Now p).

Definition with_Mode (v : OVERFLOW_MODE) (p : Pool) : Pool :=
  Build_Pool (MaxUnusedThreads p) (MaxThreads p) (MaxIdleTime p) v (Timer p)
    (Stopping p) (All p) (Unused p) (FreeEvent p) (StopEvent p)
    (ThreadsTotal p) (ThreadsUnused p) (ThreadsStopped p) (LockedInRun p)
    (OnTimerCalls p) (Errors p) (Workers p) (Now p).

Definition with_Timer (v : option Z) (p : Pool) : Pool :=
  Build_Pool (MaxUnusedThreads p) (MaxThreads p) (MaxIdleTime p) (Mode p) v
    (Stopping p) (All p) (Unused p) (FreeEvent p) (StopEvent p)
    (ThreadsTotal p) (ThreadsUnused p) (ThreadsStopped p) (LockedInRun p)
    (OnTimerCalls p) (Errors p) (Workers p) (Now p).

Definition with_Stopping (v : bool) (p : Pool) : Pool :=
  Build_Pool (MaxUnusedThreads p) (MaxThreads p) (MaxIdleTime p) (Mode p)
    (Timer p) v (All p) (Unused p) (FreeEvent p) (StopEvent p)
    (ThreadsTotal p) (ThreadsUnused p) (ThreadsStopped p) (LockedInRun p)
    (OnTimerCalls p) (Errors p) (Workers p) (Now p).

Definition with_All (v : list Worker) (p : Pool) : Pool :=
  Build_Pool (MaxUnusedThreads p) (MaxThreads p) (MaxIdleTime p) (Mode p)
    (Timer p) (Stopping p) v (Unused p) (FreeEvent p) (StopEvent p)
    (ThreadsTotal p) (ThreadsUnused p) (ThreadsStopped p) (LockedInRun p)
    (OnTimerCalls p) (Errors p) (Workers p) (Now p).

Definition with_Unused (v : list Worker) (p : Pool) : Pool :=
  Build_Pool (MaxUnusedThreads p) (MaxThreads p) (MaxIdleTime p) (Mode p)
    (Timer p) (Stopping p) (All p) v (FreeEvent p) (StopEvent p)
    (ThreadsTotal p) (ThreadsUnused p) (ThreadsStopped p) (LockedInRun p)
    (OnTimerCalls p) (Errors p) (Workers p) (Now p).

Definition with_FreeEvent (v : nat) (p : Pool) : Pool :=
  Build_Pool (MaxUnusedThreads p) (MaxThreads p) (MaxIdleTime p) (Mode p)
    (Timer p) (Stopping p) (All p) (Unused p) v (StopEvent p)
    (ThreadsTotal p) (ThreadsUnused p) (ThreadsStopped p) (LockedInRun p)
    (OnTimerCalls p) (Errors p) (Workers p) (Now p).

Definition with_StopEvent (v : bool) (p : Pool) : Pool :=
  Build_Pool (MaxUnusedThreads p) (MaxThreads p) (MaxIdleTime p) (Mode p)
    (Timer p) (Stopping p) (All p) (Unused p) (FreeEvent p) v
    (ThreadsTotal p) (ThreadsUnused p) (ThreadsStopped p) (LockedInRun p)
    (OnTimerCalls p) (Errors p) (Workers p) (Now p).

Definition with_ThreadsTotal (v : Z) (p : Pool) : Pool :=
  Build_Pool (MaxUnusedThreads p) (MaxThreads p) (MaxIdleTime p) (Mode p)
    (Timer p) (Stopping p) (All p) (Unused p) (FreeEvent p) (StopEvent p)
    v (ThreadsUnused p) (ThreadsStopped p) (LockedInRun p)
    (OnTimerCalls p) (Errors p) (Workers p) (Now p).

Definition with_ThreadsUnused (v : Z) (p : Pool) : Pool :=
  Build_Pool (MaxUnusedThreads p) (MaxThreads p) (MaxIdleTime p) (Mode p)
    (Timer p) (Stopping p) (All p) (Unused p) (FreeEvent p) (StopEvent p)
    (ThreadsTotal p) v (ThreadsStopped p) (LockedInRun p)
    (OnTimerCalls p) (Errors p) (Workers p) (Now p).

Definition with_ThreadsStopped (v : Z) (p : Pool) : Pool :=
  Build_Pool (MaxUnusedThreads p) (MaxThreads p) (MaxIdleTime p) (Mode p)
    (Timer p) (Stopping p) (All p) (Unused p) (FreeEvent p) (StopEvent p)
    (ThreadsTotal p) (ThreadsUnused p) v (LockedInRun p)
    (OnTimerCalls p) (Errors p) (Workers p) (Now p).

Definition with_LockedInRun (v : Z) (p : Pool) : Pool :=
  Build_Pool (MaxUnusedThreads p) (MaxThreads p) (MaxIdleTime p) (Mode p)
    (Timer p) (Stopping p) (All p) (Unused p) (FreeEvent p) (StopEvent p)
    (ThreadsTotal p) (ThreadsUnused p) (ThreadsStopped p) v
    (OnTimerCalls p) (Errors p) (Workers p) (Now p).

Definition with_OnTimerCalls (v : Z) (p : Pool) : Pool :=
  Build_Pool (MaxUnusedThreads p) (MaxThreads p) (MaxIdleTime p) (Mode p)
    (Timer p) (Stopping p) (All p) (Unused p) (FreeEvent p) (StopEvent p)
    (ThreadsTotal p) (ThreadsUnused p) (ThreadsStopped p) (LockedInRun p)
    v (Errors p) (Workers p) (Now p).

Definition with_Errors (v : Z) (p : Pool) : Pool :=
  Build_Pool (MaxUnusedThreads p) (MaxThreads p) (MaxIdleTime p) (Mode p)
    (Timer p) (Stopping p) (All p) (Unused p) (FreeEvent p) (StopEvent p)
    (ThreadsTotal p) (ThreadsUnused p) (ThreadsStopped p) (LockedInRun p)
    (OnTimerCalls p) v (Workers p) (Now p).

Definition with_Workers (v : gmap Worker WorkerState) (p : Pool) : Pool :=
  Build_Pool (MaxUnusedThreads p) (MaxThreads p) (MaxIdleTime p) (Mode p)
    (Timer p) (Stopping p) (All p) (Unused p) (FreeEvent p) (StopEvent p)
    (ThreadsTotal p) (ThreadsUnused p) (ThreadsStopped p) (LockedInRun p)
    (OnTimerCalls p) (Errors p) v (Now p).

Definition with_Now (v : Z) (p : Pool) : Pool :=
  Build_Pool (MaxUnusedThreads p) (MaxThreads p) (MaxIdleTime p) (Mode p)
    (Timer p) (Stopping p) (All p) (Unused p) (FreeEvent p) (StopEvent p)
    (ThreadsTotal p) (ThreadsUnused p) (ThreadsStopped p) (LockedInRun p)
    (OnTimerCalls p) (Errors p) (Workers p) v.

(** *** Machine integers *)

(** std::atomic<uint64_t>: ++ and += wrap modulo 2^64. *)
Definition uint64 (z : Z) : Z := (z mod 2 ^ 64)%Z.
Definition incr (c : Z) : Z := uint64 (c + 1).
Definition size (l : list Worker) : Z := Z.of_nat (length l).

(** long, taken as 64 bits wide (LP64). *)
Definition LONG_MIN : Z := (- 2 ^ 63)%Z.
Definition LONG_MAX : Z := (2 ^ 63 - 1)%Z.
Definition in_long (z : Z) : bool := ((LONG_MIN <=? z) && (z <=? LONG_MAX))%Z.

(** *** The worker object *)

Definition worker (p : Pool) (w : Worker) : WorkerState :=
  default new_Worker (Workers p !! w).

(** Modelled from the spec: Worker::Stop force-stops the worker. *)
Definition Worker_Stop (w : Worker) (p : Pool) : Pool :=
  with_Workers
    (<[w := {| StopCalls := S (StopCalls (worker p w));
               ExpiresAt := ExpiresAt (worker p w) |}]> (Workers p)) p.

(** Modelled from the spec: Worker::SetExpireTimer(ms) arms the expiry
    deadline [ms] from now. *)
Definition SetExpireTimer (w : Worker) (ms : Z) (p : Pool) : Pool :=
  with_Workers
    (<[w := {| StopCalls := StopCalls (worker p w);
               ExpiresAt := Some (Now p + ms)%Z |}]> (Workers p)) p.

(** Modelled from the spec: Worker::CancelExpireTimer disarms the deadline. *)
Definition CancelExpireTimer (w : Worker) (p : Pool) : Pool :=
  with_Workers
    (<[w := {| StopCalls := StopCalls (worker p w);
               ExpiresAt := None |}]> (Workers p)) p.

(** Modelled from the spec: Worker::IsExpired tells whether an armed
    deadline has elapsed; a deadline of zero is expired at once. *)
Definition IsExpired (p : Pool) (w : Worker) : bool :=
  match ExpiresAt (worker p w) with
  | Some d => (d <=? Now p)%Z
  | None => false
  end.

(** ** Pool.cpp *)

(** #define SET_TIMER() SetWaitableTimer(Timer, 4 * MaxIdleTime / 3, 0, nullptr)
    in long arithmetic: the product must fit, the quotient truncates. *)
Definition timer_due (idle : Z) : Z := (4 * idle ÷ 3)%Z.

Definition SET_TIMER (p : Pool) : Res Pool :=
  if in_long (4 * MaxIdleTime p) then
    Ok (with_Timer (Some (timer_due (MaxIdleTime p))) p)
  else Crash SignedOverflow.

Definition CancelWaitableTimer (p : Pool) : Pool := with_Timer None p.

(** Accessors *)
Definition GetMaxThread (p : Pool) : nat := MaxThreads p.
Definition SetMaxThreads (n : nat) (p : Pool) : Res Pool :=
  if decide (0 < n) then Ok (with_MaxThreads n p)
  else Crash (AssertionFailed A_SetMaxThreads_positive).
Definition GetMaxUnusedThreads (p : Pool) : nat := MaxUnusedThreads p.
Definition SetMaxUnusedThreads (n : nat) (p : Pool) : Pool :=
  with_MaxUnusedThreads n p.
Definition GetMaxIdleTime (p : Pool) : Z := MaxIdleTime p.
Definition SetMaxIdleTime (t : Z) (p : Pool) : Pool := with_MaxIdleTime t p.
Definition GetOverflowMode (p : Pool) : OVERFLOW_MODE := Mode p.
Definition SetOverflowMode (m : OVERFLOW_MODE) (p : Pool) : Pool :=
  with_Mode m p.

(** Pool::SetStopping *)
Definition SetStopping (p : Pool) : Pool :=
  with_StopEvent true (with_Stopping true p).

(** The loop of Pool::Stop over All: e->Stop(); ThreadsStopped++ *)
Definition stop_one (p : Pool) (e : Worker) : Pool :=
  with_ThreadsStopped (incr (ThreadsStopped p)) (Worker_Stop e p).

(** Pool::Stop up to the assertion *)
Definition Stop_before_clear (p : Pool) : Pool :=
  let p1 := SetStopping p in
  foldl stop_one p1 (All p1).

(** ... and from the assertion on *)
Definition Stop_clear (p : Pool) : Res Pool :=
  if decide (length (All p) = length (Unused p)) then
    Ok (with_ThreadsTotal 0 (with_All []
         (with_ThreadsUnused 0 (with_Unused [] p))))
  else Crash (AssertionFailed A_Stop_sizes).

Definition Stop (p : Pool) : Res Pool := Stop_clear (Stop_before_clear p).

(** *** Pool::Locked_StopExpired *)

Definition is_caller (caller : option Worker) (e : Worker) : bool :=
  match caller with
  | Some c => bool_decide (e = c)
  | None => false
  end.

(** One pass of the inner for loop over Unused, from position [i] on: the
    first expired worker that is not the caller, with its position, and the
    setTimer flag as the pass leaves it. *)
Fixpoint scan (p : Pool) (caller : option Worker) (i : nat)
    (l : list Worker) (setTimer : bool) : bool * option (nat * Worker) :=
  match l with
  | [] => (setTimer, None)
  | e :: l' =>
      if negb (IsExpired p e) then scan p caller (S i) l' setTimer
      else if is_caller caller e then scan p caller (S i) l' true
      else (setTimer, Some (i, e))
  end.

(** The body executed for the worker the pass stops at.  The two
    use_count assertions are left out: the model does not hold the
    reference counts of the shared pointers. *)
Definition evict (i : nat) (e : Worker) (p : Pool) : Res Pool :=
  match list_find (λ t, e = t) (All p) with
  | None => Crash (AssertionFailed A_StopExpired_found)
  | Some (j, _) =>
      let p1 := stop_one p e in
      let p2 := with_Unused (delete i (Unused p1)) p1 in
      let p3 := with_ThreadsUnused (size (Unused p2)) p2 in
      let p4 := with_All (delete j (All p3)) p3 in
      Ok (with_ThreadsTotal (size (All p4)) p4)
  end.

(** for (bool cont = true; cont;) ...: every further pass follows a removal
    from Unused, so |Unused| passes after the first are enough. *)
Fixpoint sweep (fuel : nat) (caller : option Worker) (setTimer : bool)
    (p : Pool) : Res (bool * Pool) :=
  match scan p caller 0 (Unused p) setTimer with
  | (st, None) => Ok (st, p)
  | (st, Some (i, e)) =>
      match fuel with
      | O => Crash OutOfFuel
      | S fuel' => let! p' := evict i e p in sweep fuel' caller st p'
      end
  end.

Definition Locked_StopExpired (caller : option Worker) (p : Pool) : Res Pool :=
  let p0 := CancelWaitableTimer p in
  if Stopping p0 then Ok p0
  else
    let! r := sweep (length (Unused p0)) caller false p0 in
    let '(setTimer, p1) := r in
    if setTimer then SET_TIMER p1 else Ok p1.

(** Pool::StopUnused *)
Definition StopUnused (p : Pool) : Res Pool :=
  Locked_StopExpired None
    (foldl (λ q e, SetExpireTimer e 0 q) p (Unused p)).

(** Pool::PopUnused: the worker popped (if any), allCount, the new state *)
Definition PopUnused (p : Pool) : Res (option Worker * nat * Pool) :=
  let allCount := length (All p) in
  match Unused p with
  | [] => Ok (None, allCount, p)
  | t :: rest =>
      let p1 := with_Unused rest p in
      let p2 := with_ThreadsUnused (size (Unused p1)) p1 in
      let p3 := CancelExpireTimer t p2 in
      let! p4 := Locked_StopExpired None p3 in
      Ok (Some t, allCount, p4)
  end.

(** Pool::Push(WorkerList& list, WorkerPtr t): [list] is All or Unused. *)
Inductive WorkerList := L_All | L_Unused.

Definition Push (list : WorkerList) (t : Worker) (p : Pool) : Pool :=
  let p1 :=
    match list with
    | L_All => with_All (All p ++ [t]) p
    | L_Unused => with_Unused (Unused p ++ [t]) p
    end in
  let p2 := with_ThreadsUnused (size (Unused p1)) p1 in
  with_ThreadsTotal (size (All p2)) p2.

(** Pool::Locked_Find: the pair (all, unused) *)
Definition Locked_Find (w : Worker) (p : Pool) : bool * bool :=
  (bool_decide (w ∈ All p), bool_decide (w ∈ Unused p)).

(** Pool::CB_OnFree (the _DEBUG block is not compiled in) *)
Definition CB_OnFree (w : Worker) (p : Pool) : Res Pool :=
  let! p1 :=
    (if decide (MaxUnusedThreads p < length (Unused p) + 1) then
       SET_TIMER (SetExpireTimer w (MaxIdleTime p) p)
     else Ok p) in
  let p2 := with_Unused (Unused p1 ++ [w]) p1 in
  Ok (with_FreeEvent (S (FreeEvent p2)) p2).

(** Pool::CB_OnTimer; [locked] is what Lock.try_lock() answers. *)
Definition CB_OnTimer (w : option Worker) (locked : bool) (p : Pool) : Res Pool :=
  let p1 := with_OnTimerCalls (incr (OnTimerCalls p)) p in
  if locked then Locked_StopExpired w p1 else Ok p1.

(** *** What other threads do while a caller of Run is blocked *)

(** The operations other threads complete meanwhile.  Of a further call of
    Run only its PopUnused appears here: what its Push, its error count and
    its time account add is not among the steps, so a script describes a
    pool with one caller inside Run. *)

Inductive Step :=
  | S_SetMaxThreads (n : nat)
  | S_SetMaxUnusedThreads (n : nat)
  | S_SetMaxIdleTime (t : Z)
  | S_SetOverflowMode (m : OVERFLOW_MODE)
  | S_SetStopping
  | S_Stop
  | S_StopUnused
  | S_PopUnused                                    (* another caller of Run *)
  | S_CB_OnTimer (w : option Worker) (locked : bool)
  | S_CB_OnFree (w : Worker)
  | S_Tick (dt : Z).                               (* [dt] ms go by *)

Definition exec_step (s : Step) (p : Pool) : Res Pool :=
  match s with
  | S_SetMaxThreads n => SetMaxThreads n p
  | S_SetMaxUnusedThreads n => Ok (SetMaxUnusedThreads n p)
  | S_SetMaxIdleTime t => Ok (SetMaxIdleTime t p)
  | S_SetOverflowMode m => Ok (SetOverflowMode m p)
  | S_SetStopping => Ok (SetStopping p)
  | S_Stop => Stop p
  | S_StopUnused => StopUnused p
  | S_PopUnused => let! r := PopUnused p in Ok (r.2)
  | S_CB_OnTimer w locked => CB_OnTimer w locked p
  | S_CB_OnFree w => CB_OnFree w p
  | S_Tick dt => Ok (with_Now (Now p + dt)%Z p)
  end.

Fixpoint exec_steps (l : list Step) (p : Pool) : Res Pool :=
  match l with
  | [] => Ok p
  | s :: l' => let! p' := exec_step s p in exec_steps l' p'
  end.

(** *** Pool::Run *)

(** What the collaborators answer during one call of Run. *)
Record RunEnv := {
  fresh : Worker;                         (* std::make_shared<Worker>(...)   *)
  start_ok : bool;                        (* t->Start()                      *)
  invoke : Worker → option HEvent * Z     (* t->Invoke(cb, id): handle, id   *)
}.

(** One entry per return of WaitForMultipleObjects(ev, false): what the
    other threads did until the caller is back at the loop condition, and
    the result of the wait. *)
Abbreviation Waits := (list (list Step * WAIT_RESULT)) (only parsing).

Inductive RunResult :=
  | Returned (h : option HEvent) (pid : Z)  (* None is nullptr *)
  | Blocked.                                (* no wait result left: still waiting *)

(** LockedInRun += t0.ElapsedSince() *)
Definition elapsed (t0 : Z) (p : Pool) : Pool :=
  with_LockedInRun (uint64 (LockedInRun p + (Now p - t0))) p.

Inductive LoopExit :=
  | Leave (t : option Worker)   (* break, or !Stopping failed; t as it is then *)
  | Return_nullptr              (* a return inside the loop *)
  | Waiting.

(** while (!Stopping) { ... } *)
Fixpoint Run_loop (t0 : Z) (fresh : Worker) (start_ok : bool)
    (waits : Waits) (p : Pool) : Res (LoopExit * Pool) :=
  if Stopping p then Ok (Leave None, p)
  else
    let! r := PopUnused p in
    let '(t, allSize, p1) := r in
    match t with
    | Some w => Ok (Leave (Some w), p1)
    | None =>
        if decide (MaxThreads p1 ≤ allSize) then
          match Mode p1 with
          | FAIL =>
              Ok (Return_nullptr, elapsed t0 (with_Errors (incr (Errors p1)) p1))
          | WAIT =>
              match waits with
              | [] => Ok (Waiting, p1)
              | (steps, rc) :: waits' =>
                  let! p2 := exec_steps steps p1 in
                  match rc with
                  | OBJECT_0 => Ok (Return_nullptr, elapsed t0 p2)
                  | _ => Run_loop t0 fresh start_ok waits' p2
                  end
              end
          end
        else if start_ok then
          Ok (Leave (Some fresh),
              Push L_All fresh
                (with_Workers (<[fresh := new_Worker]> (Workers p1)) p1))
        else
          Ok (Return_nullptr, elapsed t0 (with_Errors (incr (Errors p1)) p1))
    end.

(** ... and what follows the loop. *)
Definition Run_invoke (t0 : Z) (inv : Worker → option HEvent * Z)
    (t : option Worker) (p : Pool) : Res (RunResult * Pool) :=
  match t with
  | None => Crash NullDeref
  | Some w =>
      match inv w with
      | (Some h, id) => Ok (Returned (Some h) id, elapsed t0 p)
      | (None, _) =>
          let p1 := Push L_Unused w p in
          let p2 := with_Errors (incr (Errors p1)) p1 in
          Ok (Returned None 0, elapsed t0 p2)
      end
  end.

(** Pool::Run once t0 has been taken ... *)
Definition Run_at (t0 : Z) (env : RunEnv) (waits : Waits) (p : Pool)
    : Res (RunResult * Pool) :=
  let! r := Run_loop t0 (fresh env) (start_ok env) waits p in
  match r.1 with
  | Leave t => Run_invoke t0 (invoke env) t r.2
  | Return_nullptr => Ok (Returned None 0, r.2)
  | Waiting => Ok (Blocked, r.2)
  end.

(** ... and from its first line: TimePoint t0; *)
Definition Run (env : RunEnv) (waits : Waits) (p : Pool)
    : Res (RunResult * Pool) :=
  Run_at (Now p) env waits p.

(** * Specification vocabulary *)

(** ** The invariant of the two collections *)

Definition pool_inv (p : Pool) : Prop :=
  NoDup (All p) ∧ NoDup (Unused p) ∧ Unused p ⊆ All p.

(** Two states agree on what the collections hold. *)
Definition same_lists (p q : Pool) : Prop :=
  All q = All p ∧ Unused q = Unused p.

(** What the sweep leaves alone: configuration, clock, flags, events and the
    counters it does not name. *)
Record frame (p q : Pool) : Prop := {
  fr_MaxUnusedThreads : MaxUnusedThreads q = MaxUnusedThreads p;
  fr_MaxThreads : MaxThreads q = MaxThreads p;
  fr_MaxIdleTime : MaxIdleTime q = MaxIdleTime p;
  fr_Mode : Mode q = Mode p;
  fr_Stopping : Stopping q = Stopping p;
  fr_FreeEvent : FreeEvent q = FreeEvent p;
  fr_StopEvent : StopEvent q = StopEvent p;
  fr_LockedInRun : LockedInRun q = LockedInRun p;
  fr_OnTimerCalls : OnTimerCalls q = OnTimerCalls p;
  fr_Errors : Errors q = Errors p;
  fr_Now : Now q = Now p
}.

(** A worker the sweep must not touch: it is not idle, or its deadline has
    not elapsed (or is not armed), or it is the caller the sweep runs for. *)
Definition spared (c : option Worker) (p : Pool) (w : Worker) : Prop :=
  w ∉ Unused p ∨ IsExpired p w = false ∨ is_caller c w = true.

Record sweep_post (c : option Worker) (st : bool) (p : Pool)
    (st' : bool) (p' : Pool) : Prop := {
  sp_inv : pool_inv p';
  sp_frame : frame p p';
  sp_All : All p' ⊆ All p;
  sp_Unused : Unused p' ⊆ Unused p;
  sp_expire : ∀ w, ExpiresAt (worker p' w) = ExpiresAt (worker p w);
  sp_done : ∀ w, w ∈ Unused p' → IsExpired p' w = true → is_caller c w = true;
  sp_spared : ∀ w, spared c p w →
    StopCalls (worker p' w) = StopCalls (worker p w) ∧
    (w ∈ All p → w ∈ All p') ∧ (w ∈ Unused p → w ∈ Unused p');
  sp_evicted : ∀ w, ¬ spared c p w →
    (w ∉ All p') ∧ (w ∉ Unused p') ∧
    StopCalls (worker p' w) = S (StopCalls (worker p w));
  sp_flag_mono : st = true → st' = true;
  sp_flag : ∀ w, w ∈ Unused p → IsExpired p w = true →
    is_caller c w = true → st' = true
}.

(** The idle callback is for a worker that is busy: in All and not in
    Unused.  This is what the _DEBUG block of CB_OnFree asserts. *)
Definition CB_OnFree_pre (w : Worker) (p : Pool) : Prop :=
  Locked_Find w p = (true, false).

Definition step_pre (s : Step) (p : Pool) : Prop :=
  match s with
  | S_CB_OnFree w => CB_OnFree_pre w p
  | _ => True
  end.

(** A script of steps every one of which meets its precondition when its
    turn comes. *)
Fixpoint steps_ok (l : list Step) (p : Pool) : Prop :=
  match l with
  | [] => True
  | s :: l' => step_pre s p ∧ ∀ p', exec_step s p = Ok p' → steps_ok l' p'
  end.

(** Everything that takes the pool lock. *)
Inductive Op :=
  | Op_step (s : Step)
  | Op_Push (list : WorkerList) (t : Worker)
  | Op_Locked_StopExpired (caller : option Worker)
  | Op_Run (env : RunEnv) (waits : Waits).

Definition exec_op (o : Op) (p : Pool) : Res Pool :=
  match o with
  | Op_step s => exec_step s p
  | Op_Push list t => Ok (Push list t p)
  | Op_Locked_StopExpired caller => Locked_StopExpired caller p
  | Op_Run env waits => let! r := Run env waits p in Ok (r.2)
  end.

(** What the callers owe: Push appends to All a worker that has just been
    made, and to Unused a busy worker; the environment of a blocked Run
    keeps to [step_pre]. *)
Definition op_pre (o : Op) (p : Pool) : Prop :=
  match o with
  | Op_step s => step_pre s p
  | Op_Push L_All t => t ∉ All p
  | Op_Push L_Unused t => t ∈ All p ∧ t ∉ Unused p
  | Op_Locked_StopExpired _ => True
  | Op_Run env waits =>
      (fresh env ∉ All p) ∧ steps_ok (concat (fst <$> waits)) p
  end.

(** ** Some pools to run the code on *)

(** A collaborator whose workers start and accept every task ... *)
Definition env_accept (a : Worker) : RunEnv :=
  {| fresh := a; start_ok := true; invoke := λ w, (Some w, Zpos w) |}.

(** ... and one whose workers refuse the task they are handed. *)
Definition env_refuse (a : Worker) : RunEnv :=
  {| fresh := a; start_ok := true; invoke := λ _, (None, 0%Z) |}.

(** The pool after its first Run: worker 1 exists and is busy. *)
Definition pool_busy : Pool :=
  Push L_All 1%positive
    (with_Workers {[1%positive := new_Worker]} (Pool_new 0)).

(** Worker 1 idle, worker 2 busy, no idle worker kept warm. *)
Definition pool_idle : Pool :=
  with_MaxUnusedThreads 0
    (Push L_Unused 1%positive (Push L_All 2%positive pool_busy)).

(** Workers 1 and 2 idle with elapsed deadlines, worker 3 busy. *)
Definition pool_expired : Pool :=
  with_Now 5000
    (SetExpireTimer 2%positive 100
       (SetExpireTimer 1%positive 100
          (Push L_Unused 2%positive
             (Push L_Unused 1%positive
                (Push L_All 3%positive (Push L_All 2%positive pool_busy)))))).

#[global] Instance pool_inv_dec (p : Pool) : Decision (pool_inv p).
Proof. unfold pool_inv. apply _. Defined.

(** [pool_busy] with no idle worker kept warm and one millisecond of idle
    time. *)
Definition pool_short_idle : Pool :=
  with_MaxIdleTime 1 (with_MaxUnusedThreads 0 pool_busy).

(** The states the pool can be in between two critical sections. *)
Inductive reachable : Pool → Prop :=
  | reachable_new now : reachable (Pool_new now)
  | reachable_op o p p' :
      reachable p → op_pre o p → exec_op o p = Ok p' → reachable p'.

(** Workers 1 and 2 idle, over the idle capacity, with deadlines still to
    come and the shared timer armed. *)
Definition pool_two_idle : Pool :=
  with_Timer (Some 4000%Z)
    (SetExpireTimer 2%positive 3000
       (SetExpireTimer 1%positive 3000
          (with_MaxUnusedThreads 0
             (Push L_Unused 2%positive
                (Push L_Unused 1%positive (Push L_All 2%positive pool_busy)))))).


(** * Properties *)

(** ** The monad *)

Lemma bind_Ok {A B} (m : Res A) (k : A → Res B) (b : B) :
  bind m k = Ok b → ∃ a, m = Ok a ∧ k a = Ok b.
Proof. destruct m as [a|f]; simpl; [eauto | discriminate]. Qed.

Ltac inv_bind H :=
  let a := fresh "r" in
  let E := fresh "E" in
  apply bind_Ok in H as (a & E & H).

(** ** The invariant of the two collections *)

Lemma pool_inv_same_lists p q : same_lists p q → pool_inv p → pool_inv q.
Proof. intros [HA HU]. unfold pool_inv. by rewrite HA, HU. Qed.

(** ** Lists with one position erased *)

Section erase.
Implicit Types (l : list Worker) (e x : Worker).

Lemma elem_of_delete_ne l i e x :
  l !! i = Some e → x ≠ e → x ∈ l → x ∈ delete i l.
Proof.
  intros Hi Hne Hx. rewrite (delete_Permutation l i e Hi) in Hx.
  apply elem_of_cons in Hx as [?|?]; [congruence | done].
Qed.

Lemma not_elem_of_delete_NoDup l i e :
  NoDup l → l !! i = Some e → e ∉ delete i l.
Proof.
  intros Hnd Hi. rewrite (delete_Permutation l i e Hi) in Hnd.
  by apply NoDup_cons in Hnd as [? _].
Qed.

Lemma NoDup_delete l i : NoDup l → NoDup (delete i l).
Proof. intros. eapply sublist_NoDup; [done | apply sublist_delete]. Qed.

Lemma delete_subseteq_delete l k i j e :
  NoDup l → l !! i = Some e → k !! j = Some e → l ⊆ k →
  delete i l ⊆ delete j k.
Proof.
  intros Hnd Hi Hj Hsub x Hx.
  apply (elem_of_delete_ne k j e); [done | | ].
  - intros ->. by eapply not_elem_of_delete_NoDup.
  - apply Hsub. by eapply list_elem_of_delete_inv.
Qed.
End erase.

(** ** The eviction sweep *)

Lemma frame_refl p : frame p p.
Proof. by constructor. Qed.

Lemma frame_trans p q r : frame p q → frame q r → frame p r.
Proof. intros [] []. constructor; congruence. Qed.

Section sweep.
Implicit Types (p : Pool) (c : option Worker) (e w : Worker).

Lemma worker_stop_one p e w :
  worker (stop_one p e) w =
    if decide (w = e)
    then {| StopCalls := S (StopCalls (worker p e));
            ExpiresAt := ExpiresAt (worker p e) |}
    else worker p w.
Proof.
  unfold worker at 1. simpl. case_decide as Hw.
  - subst. by rewrite lookup_insert_eq.
  - by rewrite lookup_insert_ne.
Qed.

Lemma ExpiresAt_stop_one p e w :
  ExpiresAt (worker (stop_one p e) w) = ExpiresAt (worker p w).
Proof. rewrite worker_stop_one. case_decide; by subst. Qed.

Lemma StopCalls_stop_one_ne p e w :
  w ≠ e → StopCalls (worker (stop_one p e) w) = StopCalls (worker p w).
Proof. intros. rewrite worker_stop_one. by case_decide. Qed.

Lemma is_caller_false_ne c e w :
  is_caller c e = false → is_caller c w = true → w ≠ e.
Proof.
  destruct c as [x|]; simpl; [|done].
  intros H1 H2 ->. congruence.
Qed.

(** The pass stops at an expired worker that is not the caller ... *)
Lemma scan_Some p c i l st st' j e :
  scan p c i l st = (st', Some (j, e)) →
  i ≤ j ∧ l !! (j - i) = Some e ∧
  IsExpired p e = true ∧ is_caller c e = false ∧
  (st = true → st' = true).
Proof.
  revert i st. induction l as [|x l IH]; intros i st; simpl; [done|].
  destruct (IsExpired p x) eqn:Hx; simpl.
  - destruct (is_caller c x) eqn:Hc.
    + intros (? & Hl & ? & ? & ?)%IH. split_and!; [lia | | done | done | auto].
      by replace (j - i) with (S (j - S i)) by lia.
    + intros [= <- <- <-]. rewrite Nat.sub_diag. by split_and!.
  - intros (? & Hl & ? & ? & ?)%IH. split_and!; [lia | | done..].
    by replace (j - i) with (S (j - S i)) by lia.
Qed.

(** ... or runs to the end over workers that are fresh or the caller. *)
Lemma scan_None p c i l st st' :
  scan p c i l st = (st', None) →
  (∀ e, e ∈ l → IsExpired p e = true → is_caller c e = true) ∧
  (st = true → st' = true) ∧
  (∀ e, e ∈ l → IsExpired p e = true → st' = true).
Proof.
  revert i st. induction l as [|x l IH]; intros i st; simpl.
  - intros [= ->]. split_and!; [|done|]; by intros ? ?%elem_of_nil.
  - destruct (IsExpired p x) eqn:Hx; simpl.
    + destruct (is_caller c x) eqn:Hc; [|done].
      intros (H1 & H2 & H3)%IH. split_and!.
      * intros e [->|?]%elem_of_cons; eauto.
      * auto.
      * intros e [->|?]%elem_of_cons; eauto.
    + intros (H1 & H2 & H3)%IH. split_and!.
      * intros e [->|?]%elem_of_cons; [congruence | eauto].
      * done.
      * intros e [->|?]%elem_of_cons; [congruence | eauto].
Qed.

Lemma evict_Ok i e p p' :
  evict i e p = Ok p' →
  ∃ j, All p !! j = Some e ∧
    All p' = delete j (All p) ∧
    Unused p' = delete i (Unused p) ∧
    Workers p' = Workers (stop_one p e) ∧
    Timer p' = Timer p ∧
    ThreadsStopped p' = incr (ThreadsStopped p) ∧
    ThreadsUnused p' = size (Unused p') ∧
    ThreadsTotal p' = size (All p') ∧
    frame p p'.
Proof.
  unfold evict. destruct (list_find _ _) as [[j y]|] eqn:Hf; [|done].
  apply list_find_Some in Hf as (Hj & -> & _).
  intros [= <-]. exists j. by split_and!.
Qed.

Lemma evict_is_Ok i e p : e ∈ All p → ∃ p', evict i e p = Ok p'.
Proof.
  intros He. unfold evict.
  destruct (list_find_elem_of (λ t, e = t) (All p) e He eq_refl)
    as [[j y] ->]. eauto.
Qed.

Lemma worker_evict i e p p' w :
  evict i e p = Ok p' → worker p' w = worker (stop_one p e) w.
Proof.
  intros (j & _ & _ & _ & HW & _)%evict_Ok. unfold worker. by rewrite HW.
Qed.

Lemma IsExpired_evict i e p p' w :
  evict i e p = Ok p' → IsExpired p' w = IsExpired p w.
Proof.
  intros He. unfold IsExpired.
  rewrite (worker_evict _ _ _ _ _ He), ExpiresAt_stop_one.
  apply evict_Ok in He as (j & _ & _ & _ & _ & _ & _ & _ & _ & []).
  by rewrite fr_Now0.
Qed.

Lemma pool_inv_evict i e p p' :
  pool_inv p → Unused p !! i = Some e → evict i e p = Ok p' → pool_inv p'.
Proof.
  intros (HA & HU & Hsub) Hi (j & Hj & HA' & HU' & _)%evict_Ok.
  unfold pool_inv. rewrite HA', HU'.
  split_and!; [by apply NoDup_delete.. |].
  by eapply delete_subseteq_delete.
Qed.
End sweep.

Section sweep_loop.
Implicit Types (p : Pool) (c : option Worker) (e w : Worker).

Lemma IsExpired_ext p q w :
  Now q = Now p → ExpiresAt (worker q w) = ExpiresAt (worker p w) →
  IsExpired q w = IsExpired p w.
Proof. unfold IsExpired. by intros -> ->. Qed.

Lemma not_spared c p e :
  e ∈ Unused p → IsExpired p e = true → is_caller c e = false →
  ¬ spared c p e.
Proof. intros ??? [?|[?|?]]; [done | congruence..]. Qed.

Lemma spared_dec c p w : spared c p w ∨ ¬ spared c p w.
Proof.
  unfold spared. destruct (decide (w ∈ Unused p)); [|by auto].
  destruct (IsExpired p w); [|by auto].
  destruct (is_caller c w); [by auto|].
  right. intros [?|[?|?]]; done.
Qed.

Lemma spared_ne c p e w :
  e ∈ Unused p → IsExpired p e = true → is_caller c e = false →
  spared c p w → w ≠ e.
Proof. intros ??? Hs ->. by eapply not_spared. Qed.

(** With at least |Unused| units of fuel the loop ends by a pass that
    finds nothing more to stop. *)
Lemma sweep_spec fuel c st p :
  pool_inv p → length (Unused p) ≤ fuel →
  ∃ st' p', sweep fuel c st p = Ok (st', p') ∧ sweep_post c st p st' p'.
Proof.
  revert st p. induction fuel as [|fuel IH]; intros st p Hinv Hlen; simpl;
    destruct (scan p c 0 (Unused p) st) as [st1 [[i e]|]] eqn:Hscan.
  - apply scan_Some in Hscan as (_ & Hi%lookup_lt_Some & _). lia.
  - apply scan_None in Hscan as (H1 & H2 & H3).
    exists st1, p. split; [done|].
    constructor; eauto using frame_refl.
    intros w Hns. destruct Hns. unfold spared.
    destruct (decide (w ∈ Unused p)); [|by auto].
    destruct (IsExpired p w) eqn:?; eauto.
  - apply scan_Some in Hscan as (_ & Hi & Hexp & Hc & Hst).
    rewrite Nat.sub_0_r in Hi.
    assert (e ∈ Unused p) as HeU by (by eapply list_elem_of_lookup_2).
    assert (e ∈ All p) as HeA by (by apply Hinv).
    destruct (evict_is_Ok i e p HeA) as [p1 Hev]. rewrite Hev. simpl.
    pose proof (pool_inv_evict _ _ _ _ Hinv Hi Hev) as Hinv1.
    pose proof (evict_Ok _ _ _ _ Hev)
      as (j & Hj & HA1 & HU1 & HW1 & HT1 & _ & _ & _ & Hfr1).
    destruct (IH st1 p1 Hinv1) as (st' & p' & Hsw & Hpost).
    { rewrite HU1, length_delete by eauto.
      apply lookup_lt_Some in Hi. lia. }
    exists st', p'. split; [done|]. destruct Hpost.
    assert (∀ w, IsExpired p1 w = IsExpired p w) as Hexp1
      by (intros; by eapply IsExpired_evict).
    destruct Hinv as (HndA & HndU & Hsub).
    assert (e ∉ All p1) as HnA
      by (rewrite HA1; by eapply not_elem_of_delete_NoDup).
    assert (e ∉ Unused p1) as HnU
      by (rewrite HU1; by eapply not_elem_of_delete_NoDup).
    assert (∀ w, w ≠ e → StopCalls (worker p1 w) = StopCalls (worker p w))
      as Hsc1.
    { intros w ?. unfold worker at 1. rewrite HW1.
      by apply StopCalls_stop_one_ne. }
    assert (∀ w, w ≠ e → spared c p w → spared c p1 w) as Hsp1.
    { intros w ? [?|[?|?]]; unfold spared; rewrite ?Hexp1; auto.
      left. rewrite HU1. by intros ?%list_elem_of_delete_inv. }
    constructor.
    + done.
    + by eapply frame_trans.
    + rewrite HA1 in sp_All0. etrans; [done|]. apply list_subseteq_delete.
    + rewrite HU1 in sp_Unused0. etrans; [done|]. apply list_subseteq_delete.
    + intros w. rewrite sp_expire0.
      unfold worker. rewrite HW1. apply ExpiresAt_stop_one.
    + done.
    + intros w Hw. pose proof (spared_ne _ _ _ _ HeU Hexp Hc Hw) as Hne.
      destruct (sp_spared0 w) as (Hs & HinA & HinU); [by auto|].
      split_and!.
      * by rewrite Hs, Hsc1.
      * intros ?. apply HinA. rewrite HA1. by eapply elem_of_delete_ne.
      * intros ?. apply HinU. rewrite HU1. by eapply elem_of_delete_ne.
    + intros w Hns. destruct (decide (w = e)) as [->|Hne].
      * destruct (sp_spared0 e) as (Hs & _); [by left|].
        split_and!; [by auto.. |].
        rewrite Hs. unfold worker at 1. rewrite HW1.
        fold (worker (stop_one p e) e). rewrite worker_stop_one.
        by rewrite decide_True.
      * destruct (sp_evicted0 w) as (? & ? & Hs).
        { intros [Hn|[?|?]]; apply Hns; unfold spared;
            rewrite <-?Hexp1; auto.
          left. intros ?. apply Hn. rewrite HU1.
          by eapply elem_of_delete_ne. }
        split_and!; [done..|]. by rewrite Hs, Hsc1.
    + auto.
    + intros w Hw Hx Hcw.
      assert (w ≠ e) by (by eapply is_caller_false_ne).
      apply (sp_flag0 w); [|by rewrite Hexp1|done].
      rewrite HU1. by eapply elem_of_delete_ne.
  - apply scan_None in Hscan as (H1 & H2 & H3).
    exists st1, p. split; [done|].
    constructor; eauto using frame_refl.
    intros w Hns. destruct Hns. unfold spared.
    destruct (decide (w ∈ Unused p)); [|by auto].
    destruct (IsExpired p w) eqn:?; eauto.
Qed.

Lemma sweep_Timer fuel c st p st' p' :
  sweep fuel c st p = Ok (st', p') → Timer p' = Timer p.
Proof.
  revert st p. induction fuel as [|fuel IH]; intros st p; simpl;
    destruct (scan p c 0 (Unused p) st) as [st1 [[i e]|]];
    try by intros [= <- <-].
  intros H. inv_bind H. apply IH in H.
  apply evict_Ok in E as (? & _ & _ & _ & _ & HT & _). congruence.
Qed.

(** Without a caller nothing ever asks for a re-arm. *)
Lemma scan_no_caller p i l st st' r :
  scan p None i l st = (st', r) → st' = st.
Proof.
  revert i. induction l as [|x l IH]; intros i; simpl; [congruence|].
  destruct (IsExpired p x); simpl; [congruence | eauto].
Qed.

Lemma sweep_no_caller fuel st p st' p' :
  sweep fuel None st p = Ok (st', p') → st' = st.
Proof.
  revert st p. induction fuel as [|fuel IH]; intros st p; simpl;
    destruct (scan p None 0 (Unused p) st) as [st1 [[i e]|]] eqn:Hs;
    apply scan_no_caller in Hs as ->; try by intros [= <- <-].
  intros H. inv_bind H. eauto.
Qed.
End sweep_loop.

Section Locked_StopExpired.
Implicit Types (p : Pool) (c : option Worker).

Lemma Locked_StopExpired_stopping c p :
  Stopping p = true → Locked_StopExpired c p = Ok (CancelWaitableTimer p).
Proof. intros H. unfold Locked_StopExpired. simpl. by rewrite H. Qed.

Lemma SET_TIMER_Ok p p' :
  SET_TIMER p = Ok p' →
  in_long (4 * MaxIdleTime p) = true ∧
  p' = with_Timer (Some (timer_due (MaxIdleTime p))) p.
Proof. unfold SET_TIMER. case_match; by intros [= <-]. Qed.

Lemma Locked_StopExpired_running c p :
  pool_inv p → Stopping p = false →
  ∃ st' p1, sweep_post c false p st' p1 ∧ Timer p1 = None ∧
    (c = None → st' = false) ∧
    Locked_StopExpired c p = if st' then SET_TIMER p1 else Ok p1.
Proof.
  intros Hinv Hrun. unfold Locked_StopExpired. simpl. rewrite Hrun.
  destruct (sweep_spec (length (Unused p)) c false (CancelWaitableTimer p))
    as (st' & p1 & Hsw & Hpost); [done..|].
  simpl in Hsw. rewrite Hsw. simpl. exists st', p1. split_and!; [|..|done].
  - destruct Hpost as [? [] ? ? ? ? ? ? ? ?].
    constructor; first [assumption | constructor; assumption].
  - by apply sweep_Timer in Hsw.
  - intros ->. by apply sweep_no_caller in Hsw.
Qed.

Lemma Locked_StopExpired_post c p p' :
  pool_inv p → Stopping p = false → Locked_StopExpired c p = Ok p' →
  ∃ st', sweep_post c false p st' p' ∧
    (c = None → st' = false) ∧
    Timer p' = if st' then Some (timer_due (MaxIdleTime p)) else None.
Proof.
  intros Hinv Hrun.
  destruct (Locked_StopExpired_running c p Hinv Hrun)
    as (st' & p1 & Hpost & HT & Hc & ->).
  destruct st'; [|intros [= <-]; by exists false].
  intros [_ ->]%SET_TIMER_Ok. exists true. split_and!; [|done|].
  - destruct Hpost as [? [] ? ? ? ? ? ? ? ?].
    constructor; first [assumption | constructor; assumption].
  - simpl. destruct Hpost as [_ [] _ _ _ _ _ _ _ _]. congruence.
Qed.

Lemma Locked_StopExpired_pool_inv c p p' :
  pool_inv p → Locked_StopExpired c p = Ok p' → pool_inv p'.
Proof.
  intros Hinv. destruct (Stopping p) eqn:Hs.
  - rewrite Locked_StopExpired_stopping by done. by intros [= <-].
  - intros (st' & [] & _)%Locked_StopExpired_post; done.
Qed.

(** Without a caller the sweep cannot fail. *)
Lemma Locked_StopExpired_no_caller p :
  pool_inv p → ∃ p', Locked_StopExpired None p = Ok p'.
Proof.
  intros Hinv. destruct (Stopping p) eqn:Hs.
  - rewrite Locked_StopExpired_stopping by done. eauto.
  - destruct (Locked_StopExpired_running None p Hinv Hs)
      as (st' & p1 & _ & _ & Hc & ->).
    rewrite Hc by done. eauto.
Qed.
End Locked_StopExpired.

(** ** The critical sections keep the invariant *)

Section critical_sections.
Implicit Types (p : Pool) (c : option Worker) (w t : Worker).

Lemma Locked_StopExpired_lists c p p' :
  pool_inv p → Locked_StopExpired c p = Ok p' →
  All p' ⊆ All p ∧ Unused p' ⊆ Unused p ∧
  ∀ w, w ∉ Unused p → w ∈ All p → w ∈ All p'.
Proof.
  intros Hinv. destruct (Stopping p) eqn:Hs.
  - rewrite Locked_StopExpired_stopping by done. by intros [= <-].
  - intros (st' & [] & _)%Locked_StopExpired_post; [|done..].
    split_and!; [done..|]. intros w Hw. apply sp_spared0. by left.
Qed.

Lemma foldl_SetExpireTimer_lists ms l p :
  same_lists p (foldl (λ q e, SetExpireTimer e ms q) p l).
Proof.
  revert p. induction l as [|e l IH]; intros p; simpl; [done|].
  destruct (IH (SetExpireTimer e ms p)) as [H1 H2].
  split; [by rewrite H1 | by rewrite H2].
Qed.

Lemma PopUnused_Ok p (t : option Worker) n p' :
  PopUnused p = Ok (t, n, p') →
  n = length (All p) ∧
  match Unused p with
  | [] => t = None ∧ p' = p
  | w :: rest =>
      t = Some w ∧
      Locked_StopExpired None
        (CancelExpireTimer w
           (with_ThreadsUnused (size rest) (with_Unused rest p))) = Ok p'
  end.
Proof.
  unfold PopUnused. destruct (Unused p) as [|w rest].
  - by intros [= <- <- <-].
  - intros H. inv_bind H. injection H as <- <- <-. done.
Qed.

Lemma PopUnused_pool_inv p (t : option Worker) n p' :
  pool_inv p → PopUnused p = Ok (t, n, p') →
  pool_inv p' ∧ All p' ⊆ All p ∧
  match t with
  | Some w => w ∈ All p' ∧ w ∉ Unused p'
  | None => Unused p = [] ∧ p' = p
  end.
Proof.
  intros (HA & HU & Hsub) (_ & H)%PopUnused_Ok.
  destruct (Unused p) as [|w rest] eqn:HUp.
  - destruct H as [-> ->]. unfold pool_inv. rewrite HUp. done.
  - destruct H as [-> H]. apply NoDup_cons in HU as [Hw HU].
    set (q := CancelExpireTimer _ _) in H.
    assert (pool_inv q) as Hq.
    { split_and!; simpl; [done..|]. set_solver. }
    split; [by eapply Locked_StopExpired_pool_inv|].
    destruct (Locked_StopExpired_lists _ _ _ Hq H) as (H1 & H2 & H3).
    split; [done|]. split.
    + apply H3; simpl; [done|]. set_solver.
    + intros ?%H2. done.
Qed.

Lemma Push_All_pool_inv t p : pool_inv p → t ∉ All p → pool_inv (Push L_All t p).
Proof.
  intros (HA & HU & Hsub) Ht. split_and!; simpl; [|done|set_solver].
  apply NoDup_app. split_and!; [done| |apply NoDup_singleton].
  intros x ? ->%list_elem_of_singleton. done.
Qed.

Lemma Push_Unused_pool_inv t p :
  pool_inv p → t ∈ All p → t ∉ Unused p → pool_inv (Push L_Unused t p).
Proof.
  intros (HA & HU & Hsub) Ht Hn. split_and!; simpl; [done| |set_solver].
  apply NoDup_app. split_and!; [done| |apply NoDup_singleton].
  intros x ? ->%list_elem_of_singleton. done.
Qed.

Lemma CB_OnFree_Ok w p p' :
  CB_OnFree w p = Ok p' →
  All p' = All p ∧ Unused p' = Unused p ++ [w] ∧
  FreeEvent p' = S (FreeEvent p) ∧
  ThreadsUnused p' = ThreadsUnused p ∧
  Now p' = Now p ∧
  if decide (MaxUnusedThreads p < length (Unused p) + 1) then
    in_long (4 * MaxIdleTime p) = true ∧
    Timer p' = Some (timer_due (MaxIdleTime p)) ∧
    ExpiresAt (worker p' w) = Some (Now p + MaxIdleTime p)%Z
  else Timer p' = Timer p ∧ Workers p' = Workers p.
Proof.
  unfold CB_OnFree. intros H. inv_bind H. injection H as <-.
  case_decide.
  - apply SET_TIMER_Ok in E as [Hl ->]. simpl in *.
    split_and!; try done.
    unfold worker. simpl. by rewrite lookup_insert_eq.
  - injection E as <-. done.
Qed.

Lemma CB_OnFree_pre_iff w p : CB_OnFree_pre w p ↔ w ∈ All p ∧ w ∉ Unused p.
Proof.
  unfold CB_OnFree_pre, Locked_Find. split.
  - intros [= H1%bool_decide_eq_true H2%bool_decide_eq_false]. done.
  - intros [H1 H2]. by rewrite bool_decide_eq_true_2, bool_decide_eq_false_2.
Qed.

Lemma CB_OnFree_pool_inv w p p' :
  pool_inv p → CB_OnFree_pre w p → CB_OnFree w p = Ok p' → pool_inv p'.
Proof.
  intros Hinv [Hw Hn]%CB_OnFree_pre_iff (HA & HU & _)%CB_OnFree_Ok.
  destruct (Push_Unused_pool_inv w p Hinv Hw Hn) as (? & ? & ?).
  unfold pool_inv. rewrite HA, HU. done.
Qed.

Lemma Stop_Ok p p' : Stop p = Ok p' → All p' = [] ∧ Unused p' = [].
Proof. unfold Stop, Stop_clear. case_decide; by intros [= <-]. Qed.

Lemma pool_inv_nil p : All p = [] → Unused p = [] → pool_inv p.
Proof.
  intros HA HU. unfold pool_inv. rewrite HA, HU.
  split_and!; [apply NoDup_nil_2..|done].
Qed.

Lemma exec_step_pool_inv s p p' :
  pool_inv p → step_pre s p → exec_step s p = Ok p' →
  pool_inv p' ∧ All p' ⊆ All p.
Proof.
  intros Hinv Hpre. destruct s; simpl in *.
  - unfold SetMaxThreads. case_decide; by intros [= <-].
  - by intros [= <-].
  - by intros [= <-].
  - by intros [= <-].
  - by intros [= <-].
  - intros [HA HU]%Stop_Ok. split; [by apply pool_inv_nil|].
    rewrite HA. set_solver.
  - unfold StopUnused. intros H.
    pose proof (foldl_SetExpireTimer_lists 0 (Unused p) p) as Hsl.
    pose proof (pool_inv_same_lists _ _ Hsl Hinv) as Hinv'.
    split; [by eapply Locked_StopExpired_pool_inv|].
    destruct (Locked_StopExpired_lists _ _ _ Hinv' H) as (HA & _).
    destruct Hsl as [<- _]. done.
  - intros H. inv_bind H. injection H as <-. destruct r as [[t n] q].
    apply PopUnused_pool_inv in E as (? & ? & _); done.
  - unfold CB_OnTimer. destruct locked; [|by intros [= <-]].
    set (q := with_OnTimerCalls _ _). intros H.
    assert (pool_inv q) as Hq by done.
    split; [by eapply Locked_StopExpired_pool_inv|].
    by destruct (Locked_StopExpired_lists _ _ _ Hq H) as (HA & _).
  - intros H. split; [by eapply CB_OnFree_pool_inv|].
    apply CB_OnFree_Ok in H as (-> & _). done.
  - by intros [= <-].
Qed.

Lemma steps_ok_app l1 l2 p :
  steps_ok (l1 ++ l2) p ↔
  steps_ok l1 p ∧ ∀ p', exec_steps l1 p = Ok p' → steps_ok l2 p'.
Proof.
  revert p. induction l1 as [|s l1 IH]; intros p; simpl.
  - split; [|naive_solver]. intros ?. split; [done|]. by intros ? [= <-].
  - split.
    + intros [Hs H]. split_and!; [done| |].
      * intros p' Hp'. by apply (proj1 (IH p') (H p' Hp')).
      * intros p' Hp'. inv_bind Hp'.
        by apply (proj1 (IH r) (H r E)).
    + intros ([Hs H1] & H2). split; [done|]. intros p' Hp'. apply IH.
      split; [by apply H1|]. intros p'' Hp''. apply H2.
      by rewrite Hp'.
Qed.

Lemma exec_steps_pool_inv l p p' :
  pool_inv p → steps_ok l p → exec_steps l p = Ok p' →
  pool_inv p' ∧ All p' ⊆ All p.
Proof.
  revert p. induction l as [|s l IH]; intros p Hinv Hok; simpl.
  - by intros [= <-].
  - intros H. inv_bind H. destruct Hok as [Hs Hok].
    destruct (exec_step_pool_inv s p r Hinv Hs E) as [Hr HA].
    destruct (IH r Hr (Hok _ E) H) as [? ?]. split; [done|]. set_solver.
Qed.
End critical_sections.

(** ** Pool::Run *)

Section Run.
Implicit Types (p : Pool) (w : Worker) (x : LoopExit).

(** One turn of the while loop. *)
Lemma Run_loop_unfold t0 fr ok waits p :
  Run_loop t0 fr ok waits p =
    if Stopping p then Ok (Leave None, p)
    else
      let! r := PopUnused p in
      let '(t, allSize, p1) := r in
      match t with
      | Some w => Ok (Leave (Some w), p1)
      | None =>
          if decide (MaxThreads p1 ≤ allSize) then
            match Mode p1 with
            | FAIL =>
                Ok (Return_nullptr,
                    elapsed t0 (with_Errors (incr (Errors p1)) p1))
            | WAIT =>
                match waits with
                | [] => Ok (Waiting, p1)
                | (steps, rc) :: waits' =>
                    let! p2 := exec_steps steps p1 in
                    match rc with
                    | OBJECT_0 => Ok (Return_nullptr, elapsed t0 p2)
                    | _ => Run_loop t0 fr ok waits' p2
                    end
                end
            end
          else if ok then
            Ok (Leave (Some fr),
                Push L_All fr
                  (with_Workers (<[fr := new_Worker]> (Workers p1)) p1))
          else
            Ok (Return_nullptr,
                elapsed t0 (with_Errors (incr (Errors p1)) p1))
      end.
Proof. by destruct waits. Qed.

(** The loop keeps the invariant, and a worker it leaves with is busy:
    in All and not in Unused. *)
Lemma Run_loop_pool_inv t0 fr ok waits p x p' :
  pool_inv p → fr ∉ All p → steps_ok (concat (fst <$> waits)) p →
  Run_loop t0 fr ok waits p = Ok (x, p') →
  pool_inv p' ∧
  match x with
  | Leave (Some t) => t ∈ All p' ∧ t ∉ Unused p'
  | _ => True
  end.
Proof.
  revert p. induction waits as [|[steps rc] waits IH];
    intros p Hinv Hfr Hok; rewrite Run_loop_unfold;
    (destruct (Stopping p); [by intros [= <- <-]|]);
    intros H; inv_bind H; destruct r as [[t n] p1];
    apply PopUnused_pool_inv in E as (Hinv1 & HA1 & Ht); try done;
    (destruct t as [w|]; [by injection H as <- <-|]);
    destruct Ht as [HU ->].
  - case_decide.
    + destruct (Mode p); by injection H as <- <-.
    + destruct ok; injection H as <- <-; [|done].
      split; [apply Push_All_pool_inv; done|]. simpl.
      split; [set_solver|]. destruct Hinv as (_ & _ & Hsub).
      intros ?%Hsub. done.
  - case_decide.
    + destruct (Mode p); [|by injection H as <- <-].
      inv_bind H. simpl in Hok. apply steps_ok_app in Hok as [Hok1 Hok2].
      destruct (exec_steps_pool_inv steps p r Hinv Hok1 E) as [Hr HAr].
      destruct rc; [by injection H as <- <-|..];
        (eapply IH; [exact Hr | set_solver | by apply Hok2 | exact H]).
    + destruct ok; injection H as <- <-; [|done].
      split; [apply Push_All_pool_inv; done|]. simpl.
      split; [set_solver|]. destruct Hinv as (_ & _ & Hsub).
      intros ?%Hsub. done.
Qed.

Lemma Run_invoke_pool_inv t0 inv (t : option Worker) p r :
  pool_inv p →
  match t with Some w => w ∈ All p ∧ w ∉ Unused p | None => True end →
  Run_invoke t0 inv t p = Ok r → pool_inv r.2.
Proof.
  intros Hinv Ht. unfold Run_invoke. destruct t as [w|]; [|done].
  destruct (inv w) as [[h|] id]; intros [= <-]; simpl; [done|].
  destruct Ht. by apply (Push_Unused_pool_inv w p).
Qed.

Lemma Run_pool_inv env waits p r :
  pool_inv p → op_pre (Op_Run env waits) p → Run env waits p = Ok r →
  pool_inv r.2.
Proof.
  intros Hinv [Hfr Hok]. unfold Run, Run_at. intros H. inv_bind H.
  destruct r0 as [x p1].
  apply Run_loop_pool_inv in E as [Hinv1 Hx]; [|done..]. simpl in H.
  destruct x as [t| |].
  - eapply Run_invoke_pool_inv; [exact Hinv1 | | exact H].
    by destruct t.
  - by injection H as <-.
  - by injection H as <-.
Qed.
End Run.

(** ** Pool::StopUnused *)

Section StopUnused.
Implicit Types (p : Pool) (w : Worker).

Lemma IsExpired_SetExpireTimer_0 e w p :
  IsExpired p w = true ∨ w = e → IsExpired (SetExpireTimer e 0 p) w = true.
Proof.
  unfold IsExpired, worker. simpl. intros H.
  destruct (decide (w = e)) as [->|Hne].
  - rewrite lookup_insert_eq. simpl. apply Z.leb_le. lia.
  - rewrite lookup_insert_ne by done. by destruct H.
Qed.

Lemma foldl_SetExpireTimer_expired l p w :
  IsExpired p w = true ∨ w ∈ l →
  IsExpired (foldl (λ q e, SetExpireTimer e 0 q) p l) w = true.
Proof.
  revert p. induction l as [|e l IH]; intros p; simpl.
  - intros [?|?%elem_of_nil]; done.
  - intros H. apply IH.
    destruct H as [?|[->|?]%elem_of_cons]; [left|left|by right];
      apply IsExpired_SetExpireTimer_0; auto.
Qed.

Lemma foldl_SetExpireTimer_Stopping l p :
  Stopping (foldl (λ q e, SetExpireTimer e 0 q) p l) = Stopping p.
Proof.
  revert p. induction l as [|e l IH]; intros p; simpl; [done|].
  by rewrite IH.
Qed.

(** StopUnused stops and removes every idle worker, and no busy one. *)
Lemma StopUnused_spec p :
  pool_inv p → Stopping p = false →
  ∃ p', StopUnused p = Ok p' ∧ Unused p' = [] ∧ pool_inv p' ∧
    (∀ w, w ∈ Unused p → w ∉ All p') ∧
    (∀ w, w ∉ Unused p → w ∈ All p → w ∈ All p').
Proof.
  intros Hinv Hs. unfold StopUnused.
  set (q := foldl _ p (Unused p)).
  destruct (foldl_SetExpireTimer_lists 0 (Unused p) p) as [HA HU].
  fold q in HA, HU.
  assert (pool_inv q) as Hq by (by eapply pool_inv_same_lists).
  assert (Stopping q = false) as Hsq
    by (unfold q; by rewrite foldl_SetExpireTimer_Stopping).
  destruct (Locked_StopExpired_running None q Hq Hsq)
    as (st' & p' & [] & _ & Hc & ->).
  rewrite Hc by done. exists p'. split; [done|].
  assert (∀ w, w ∈ Unused p → ¬ spared None q w) as Hns.
  { intros w Hw [Hn|[Hx|?]]; [| |done].
    - apply Hn. by rewrite HU.
    - unfold q in Hx. rewrite foldl_SetExpireTimer_expired in Hx by auto.
      done. }
  split_and!.
  - destruct (Unused p') as [|w l] eqn:HU'; [done|].
    assert (w ∈ Unused p) as Hw.
    { rewrite <-HU. apply sp_Unused0. set_solver. }
    destruct (sp_evicted0 w (Hns w Hw)) as (_ & Hn & _).
    destruct Hn. set_solver.
  - done.
  - intros w Hw. by destruct (sp_evicted0 w (Hns w Hw)).
  - intros w Hn Hw. apply sp_spared0; [|by rewrite HA].
    left. by rewrite HU.
Qed.

(** Under the invariant a pop cannot fail. *)
Lemma PopUnused_total p : pool_inv p → ∃ r, PopUnused p = Ok r.
Proof.
  intros (HA & HU & Hsub). unfold PopUnused.
  destruct (Unused p) as [|w rest] eqn:HUp; [eauto|].
  set (q := CancelExpireTimer _ _).
  destruct (Locked_StopExpired_no_caller q) as [p' ->]; [|simpl; eauto].
  apply NoDup_cons in HU as [? ?].
  split_and!; simpl; [done..|]. set_solver.
Qed.
End StopUnused.

(** * The claims *)

(** ** Pool::Locked_StopExpired *)

(** C10: while the stopping flag is set, the eviction sweep cancels the
    shared timer and returns; no worker is stopped, All and Unused are
    unchanged, and so are the stopped-count and the two size diagnostics. *)
Theorem C10_sweep_while_stopping (caller : option Worker) (p : Pool) :
  Stopping p = true →
  ∃ p', Locked_StopExpired caller p = Ok p' ∧
    p' = CancelWaitableTimer p ∧
    Timer p' = None ∧
    All p' = All p ∧ Unused p' = Unused p ∧
    Workers p' = Workers p ∧
    ThreadsStopped p' = ThreadsStopped p ∧
    ThreadsTotal p' = ThreadsTotal p ∧
    ThreadsUnused p' = ThreadsUnused p.
Proof.
  intros Hs. exists (CancelWaitableTimer p).
  split; [by apply Locked_StopExpired_stopping|]. by split_and!.
Qed.

Lemma C10_witness :
  ∃ p', Locked_StopExpired (Some 1%positive) (SetStopping pool_idle) = Ok p' ∧
    p' = CancelWaitableTimer (SetStopping pool_idle).
Proof.
  destruct (C10_sweep_while_stopping (Some 1%positive) (SetStopping pool_idle))
    as (p' & H1 & H2 & _); [reflexivity|].
  exists p'. by split.
Defined.

(** C8: a sweep run for a caller never stops the caller and never removes
    it from All or Unused, even when its deadline has elapsed.  It scans
    past the caller (afterwards no other expired worker is left in Unused),
    and when it met the caller expired it re-arms the shared timer once the
    scan is over. *)
Theorem C8_sweep_spares_caller (c : Worker) (p : Pool) :
  pool_inv p → in_long (4 * MaxIdleTime p) = true →
  ∃ p', Locked_StopExpired (Some c) p = Ok p' ∧
    StopCalls (worker p' c) = StopCalls (worker p c) ∧
    (c ∈ All p → c ∈ All p') ∧
    (c ∈ Unused p → c ∈ Unused p') ∧
    (Stopping p = false →
       (∀ w, w ∈ Unused p' → IsExpired p' w = true → w = c) ∧
       (c ∈ Unused p → IsExpired p c = true →
          Timer p' = Some (timer_due (MaxIdleTime p)))).
Proof.
  intros Hinv Hlong. destruct (Stopping p) eqn:Hs.
  { exists (CancelWaitableTimer p).
    split; [by apply Locked_StopExpired_stopping|]. by split_and!. }
  destruct (Locked_StopExpired_running (Some c) p Hinv Hs)
    as (st' & p1 & Hpost & HT & _ & ->).
  assert (∃ p', (if st' then SET_TIMER p1 else Ok p1) = Ok p' ∧
            sweep_post (Some c) false p st' p' ∧
            (st' = true → Timer p' = Some (timer_due (MaxIdleTime p))))
    as (p' & -> & [] & Htimer).
  { destruct st'; [|by exists p1].
    exists (with_Timer (Some (timer_due (MaxIdleTime p1))) p1).
    pose proof (fr_MaxIdleTime _ _ (sp_frame _ _ _ _ _ Hpost)) as Hidle.
    unfold SET_TIMER. rewrite Hidle, Hlong. split_and!; [done| |done].
    destruct Hpost as [? [] ? ? ? ? ? ? ? ?].
    constructor; first [assumption | constructor; assumption]. }
  exists p'. split; [done|].
  assert (spared (Some c) p c) as Hsp.
  { right; right. simpl. by apply bool_decide_eq_true_2. }
  destruct (sp_spared0 c Hsp) as (? & ? & ?).
  split_and!; [done..|]. intros _. split.
  - intros w Hw Hx. specialize (sp_done0 w Hw Hx). simpl in sp_done0.
    by apply bool_decide_eq_true in sp_done0.
  - intros Hc Hx. apply Htimer, (sp_flag0 c); [done..|].
    simpl. by apply bool_decide_eq_true_2.
Qed.

Lemma C8_witness :
  ∃ p', Locked_StopExpired (Some 1%positive) pool_expired = Ok p' ∧
    StopCalls (worker p' 1%positive) = 0 ∧
    1%positive ∈ All p' ∧ 1%positive ∈ Unused p' ∧
    Timer p' = Some 4000%Z.
Proof.
  assert (pool_inv pool_expired) as Hinv
    by (apply (bool_decide_unpack _); vm_compute; exact I).
  assert (in_long (4 * MaxIdleTime pool_expired) = true) as Hlong
    by reflexivity.
  destruct (C8_sweep_spares_caller 1%positive pool_expired Hinv Hlong)
    as (p' & Hrun & Hstop & HA & HU & Hrest).
  destruct Hrest as [_ Htimer]; [reflexivity|].
  exists p'. split_and!.
  - exact Hrun.
  - exact Hstop.
  - apply HA. apply (bool_decide_unpack _). vm_compute. exact I.
  - apply HU. apply (bool_decide_unpack _). vm_compute. exact I.
  - apply Htimer; [|reflexivity].
    apply (bool_decide_unpack _). vm_compute. exact I.
Defined.

(** ** Pool::Stop *)

Lemma foldl_stop_one_lists l p : same_lists p (foldl stop_one p l).
Proof.
  revert p. induction l as [|e l IH]; intros p; simpl; [done|].
  destruct (IH (stop_one p e)) as [H1 H2].
  split; [by rewrite H1 | by rewrite H2].
Qed.

Lemma Stop_before_clear_lists p :
  All (Stop_before_clear p) = All p ∧ Unused (Stop_before_clear p) = Unused p.
Proof. apply (foldl_stop_one_lists (All (SetStopping p)) (SetStopping p)). Qed.

(** With no worker busy the two collections hold the same workers. *)
Lemma idle_pool_sizes p :
  pool_inv p → All p ⊆ Unused p → length (All p) = length (Unused p).
Proof.
  intros (HA & HU & Hsub) Hidle. apply Permutation_length.
  apply NoDup_Permutation; [done..|]. intros x; split; auto.
Qed.

(** C9: when no worker is busy as Stop is called (every worker of All is in
    Unused too), the assertion |All| == |Unused| holds where Stop reaches
    it, just before the collections are cleared; Stop then completes with
    both collections empty and the total and unused counters at zero. *)
Theorem C9_Stop_assertion_holds (p : Pool) :
  pool_inv p → All p ⊆ Unused p →
  length (All (Stop_before_clear p)) = length (Unused (Stop_before_clear p)) ∧
  ∃ p', Stop p = Ok p' ∧
    All p' = [] ∧ Unused p' = [] ∧
    ThreadsTotal p' = 0%Z ∧ ThreadsUnused p' = 0%Z.
Proof.
  intros Hinv Hidle.
  destruct (Stop_before_clear_lists p) as [HA HU].
  assert (length (All (Stop_before_clear p))
          = length (Unused (Stop_before_clear p))) as Hlen.
  { rewrite HA, HU. by apply idle_pool_sizes. }
  split; [done|]. unfold Stop, Stop_clear. rewrite decide_True by done.
  eexists. split; [done|]. by split_and!.
Qed.

Lemma C9_witness :
  length (All (Stop_before_clear pool_expired)) = 3 ∧
  ∃ p', Stop (Push L_Unused 3%positive pool_expired) = Ok p' ∧
    All p' = [] ∧ Unused p' = [] ∧
    ThreadsTotal p' = 0%Z ∧ ThreadsUnused p' = 0%Z.
Proof.
  split; [reflexivity|].
  apply (C9_Stop_assertion_holds (Push L_Unused 3%positive pool_expired)).
  - apply (bool_decide_unpack _). vm_compute. exact I.
  - apply (bool_decide_unpack _). vm_compute. exact I.
Defined.

(** ** Pool::Run *)

Lemma Run_stopping env waits p :
  Stopping p = true → Run env waits p = Crash NullDeref.
Proof.
  intros Hs. unfold Run, Run_at. rewrite Run_loop_unfold, Hs. done.
Qed.

Lemma foldl_stop_one_Stopping l p :
  Stopping (foldl stop_one p l) = Stopping p.
Proof.
  revert p. induction l as [|e l IH]; intros p; simpl; [done|].
  by rewrite IH.
Qed.

Lemma Stop_Stopping p p' : Stop p = Ok p' → Stopping p' = true.
Proof.
  unfold Stop, Stop_clear. case_decide; [|done]. intros [= <-]. simpl.
  unfold Stop_before_clear. by rewrite foldl_stop_one_Stopping.
Qed.

(** C1: after Stop both collections are empty, but a later Run does not
    return a refusal: with the flag set the while loop is not entered, [t]
    is still empty, and Run goes on to [t->Invoke(cb, id)]. *)
Theorem C1_Run_after_Stop (env : RunEnv) (waits : Waits) (p p' : Pool) :
  Stop p = Ok p' →
  All p' = [] ∧ Unused p' = [] ∧
  Run env waits p' = Crash NullDeref ∧
  ∀ q, Run env waits p' ≠ Ok (Returned None 0, q).
Proof.
  intros H. destruct (Stop_Ok _ _ H) as [HA HU].
  rewrite (Run_stopping env waits p' (Stop_Stopping _ _ H)).
  by split_and!.
Qed.

Lemma C1_witness :
  ∃ p', Stop (Pool_new 0) = Ok p' ∧
    Run (env_accept 1%positive) [] p' = Crash NullDeref.
Proof.
  eexists. split; [reflexivity|].
  apply (C1_Run_after_Stop (env_accept 1%positive) [] (Pool_new 0)).
  reflexivity.
Defined.

(** C2: with no idle worker, |All| at MaxThreads or above and overflow mode
    FAIL, Run adds one to the error counter and returns nullptr at once,
    whatever the waits would have delivered; no worker is made and neither
    All nor Unused changes. *)
Theorem C2_fail_mode_refuses (env : RunEnv) (waits : Waits) (p : Pool) :
  Stopping p = false → Unused p = [] →
  MaxThreads p ≤ length (All p) → Mode p = FAIL →
  ∃ p', Run env waits p = Ok (Returned None 0, p') ∧
    p' = elapsed (Now p) (with_Errors (incr (Errors p)) p) ∧
    Errors p' = incr (Errors p) ∧
    All p' = All p ∧ Unused p' = Unused p ∧ Workers p' = Workers p.
Proof.
  intros Hs HU Hcap Hmode. eexists. split; [|by split_and!].
  unfold Run, Run_at. rewrite Run_loop_unfold, Hs.
  unfold PopUnused. rewrite HU. simpl.
  rewrite decide_True by done. by rewrite Hmode.
Qed.

Lemma C2_witness :
  ∃ p', Run (env_accept 9%positive) []
          (with_Mode FAIL (with_MaxThreads 1 pool_busy))
        = Ok (Returned None 0, p') ∧
    Errors p' = 1%Z ∧ All p' = [1%positive] ∧ Unused p' = [].
Proof.
  destruct (C2_fail_mode_refuses (env_accept 9%positive) []
              (with_Mode FAIL (with_MaxThreads 1 pool_busy)))
    as (p' & H & _ & HE & HA & HU & _); [reflexivity | reflexivity | | reflexivity |].
  - simpl. lia.
  - exists p'. by split_and!.
Defined.





(** C4: when Run has obtained a worker, popped from Unused or newly made,
    and the worker's Invoke fails, Run appends that worker to Unused, adds
    one to the error counter and returns nullptr; the worker is (still) in
    All. *)
Theorem C4_invoke_failure_salvages (env : RunEnv) (waits : Waits)
    (p p1 : Pool) (t : Worker) :
  pool_inv p → fresh env ∉ All p → steps_ok (concat (fst <$> waits)) p →
  Run_loop (Now p) (fresh env) (start_ok env) waits p
    = Ok (Leave (Some t), p1) →
  (invoke env t).1 = None →
  ∃ p', Run env waits p = Ok (Returned None 0, p') ∧
    Unused p' = Unused p1 ++ [t] ∧
    All p' = All p1 ∧ t ∈ All p' ∧
    Errors p' = incr (Errors p1).
Proof.
  intros Hinv Hfr Hok Hloop Hinvoke.
  destruct (Run_loop_pool_inv _ _ _ _ _ _ _ Hinv Hfr Hok Hloop)
    as (_ & HtA & _).
  unfold Run, Run_at. rewrite Hloop. simpl.
  destruct (invoke env t) as [[h|] id]; [done|].
  eexists. split; [done|]. by split_and!.
Qed.

Lemma C4_witness :
  ∃ p', Run (env_refuse 9%positive) [] pool_idle = Ok (Returned None 0, p') ∧
    Unused p' = [1%positive] ∧ All p' = [1%positive; 2%positive] ∧
    Errors p' = 1%Z.
Proof.
  edestruct (C4_invoke_failure_salvages (env_refuse 9%positive) [] pool_idle)
    as (p' & HR & HU & HA & _ & HE).
  - apply (bool_decide_unpack _). vm_compute. exact I.
  - apply (bool_decide_unpack _). vm_compute. exact I.
  - exact I.
  - vm_compute. reflexivity.
  - reflexivity.
  - exists p'. split_and!; [exact HR | exact HU | exact HA | exact HE].
Defined.

(** ** The invariant *)

Lemma pool_inv_Pool_new now : pool_inv (Pool_new now).
Proof. by apply pool_inv_nil. Qed.

Lemma exec_op_pool_inv (o : Op) (p p' : Pool) :
  pool_inv p → op_pre o p → exec_op o p = Ok p' → pool_inv p'.
Proof.
  intros Hinv Hpre. destruct o as [s|list t|c|env waits]; simpl.
  - intros H. by destruct (exec_step_pool_inv s p p' Hinv Hpre H).
  - intros [= <-]. destruct list; simpl in Hpre.
    + by apply Push_All_pool_inv.
    + destruct Hpre. by apply Push_Unused_pool_inv.
  - by apply Locked_StopExpired_pool_inv.
  - intros H. inv_bind H. injection H as <-. by eapply Run_pool_inv.
Qed.

(** From a new pool on, the invariant holds wherever the lock is free. *)
Lemma reachable_pool_inv p : reachable p → pool_inv p.
Proof.
  induction 1 as [now|o p p' _ IH Hpre Hex].
  - apply pool_inv_Pool_new.
  - by eapply exec_op_pool_inv.
Qed.

(** C5: every worker in Unused is in All and no worker is twice in either
    collection; each operation that takes the lock (Run and its PopUnused
    and Push, the idle callback, the timer callback and the sweep, Stop,
    StopUnused, the setters) hands this on from the state it finds to the
    state it leaves. *)
Theorem C5_pool_inv_preserved (o : Op) (p p' : Pool) :
  pool_inv p → op_pre o p → exec_op o p = Ok p' → pool_inv p'.
Proof. apply exec_op_pool_inv. Qed.

Lemma C5_witness :
  ∃ p', exec_op (Op_step (S_CB_OnFree 2%positive)) pool_idle = Ok p' ∧
    Unused p' = [1%positive; 2%positive] ∧ pool_inv p'.
Proof.
  eexists. split; [vm_compute; reflexivity|]. split; [reflexivity|].
  eapply (C5_pool_inv_preserved (Op_step (S_CB_OnFree 2%positive)) pool_idle).
  - apply (bool_decide_unpack _). vm_compute. exact I.
  - reflexivity.
  - vm_compute. reflexivity.
Defined.

(** ** Pool::CB_OnFree *)

(** C6: the idle callback appends the worker to Unused and raises the free
    event once, but it leaves the idle-count diagnostic as it was: where
    ThreadsUnused matched |Unused| before the callback, it is one short
    afterwards.  (Push, PopUnused and the sweep all store Unused.size()
    after they change Unused.) *)
Theorem C6_idle_callback_skips_ThreadsUnused (w : Worker) (p p' : Pool) :
  CB_OnFree w p = Ok p' → ThreadsUnused p = size (Unused p) →
  Unused p' = Unused p ++ [w] ∧
  FreeEvent p' = S (FreeEvent p) ∧
  ThreadsUnused p' = ThreadsUnused p ∧
  ThreadsUnused p' ≠ size (Unused p').
Proof.
  intros (_ & HU & HF & HT & _)%CB_OnFree_Ok Hsize. split_and!; [done..|].
  rewrite HT, HU, Hsize. unfold size. rewrite length_app. simpl. lia.
Qed.

Lemma C6_witness :
  ∃ p', CB_OnFree 1%positive pool_busy = Ok p' ∧
    Unused p' = [1%positive] ∧ ThreadsUnused p' = 0%Z ∧
    ThreadsUnused p' ≠ size (Unused p').
Proof.
  eexists. split; [vm_compute; reflexivity|].
  split; [reflexivity|]. split; [reflexivity|].
  eapply (C6_idle_callback_skips_ThreadsUnused 1%positive pool_busy).
  - vm_compute. reflexivity.
  - reflexivity.
Defined.

Lemma timer_due_longer (idle : Z) :
  (3 ≤ idle → idle < timer_due idle)%Z.
Proof.
  intros H. unfold timer_due. rewrite Z.quot_div_nonneg by lia.
  assert (idle + 1 ≤ 4 * idle / 3)%Z
    by (apply Z.div_le_lower_bound; lia).
  lia.
Qed.

Lemma timer_due_not_shorter (idle : Z) :
  (0 ≤ idle → idle ≤ timer_due idle)%Z.
Proof.
  intros H. unfold timer_due. rewrite Z.quot_div_nonneg by lia.
  apply Z.div_le_lower_bound; lia.
Qed.

(** C7, as the code has it: when the idle callback gives a worker an expiry
    deadline and 4 * MaxIdleTime is within long, the deadline is MaxIdleTime
    from now and the shared timer is armed with 4 * MaxIdleTime / 3 in
    truncating long arithmetic.  From MaxIdleTime = 3 on that is strictly
    longer than the deadline; for every MaxIdleTime that is not negative it
    is at least the deadline, and the deadline has elapsed when the timer
    is due. *)
Theorem C7_timer_due_after_deadline (w : Worker) (p : Pool) :
  MaxUnusedThreads p < length (Unused p) + 1 →
  in_long (4 * MaxIdleTime p) = true →
  ∃ p', CB_OnFree w p = Ok p' ∧
    ExpiresAt (worker p' w) = Some (Now p + MaxIdleTime p)%Z ∧
    Timer p' = Some (4 * MaxIdleTime p ÷ 3)%Z ∧
    ((3 ≤ MaxIdleTime p)%Z → (MaxIdleTime p < 4 * MaxIdleTime p ÷ 3)%Z) ∧
    ((0 ≤ MaxIdleTime p)%Z →
       (MaxIdleTime p ≤ 4 * MaxIdleTime p ÷ 3)%Z ∧
       IsExpired (with_Now (Now p' + 4 * MaxIdleTime p ÷ 3)%Z p') w = true).
Proof.
  intros Hcap Hlong.
  assert (∃ p', CB_OnFree w p = Ok p') as [p' HR].
  { unfold CB_OnFree, SET_TIMER. rewrite decide_True by done. simpl.
    rewrite Hlong. simpl. eauto. }
  exists p'. split; [done|].
  apply CB_OnFree_Ok in HR as (_ & _ & _ & _ & HN & H).
  rewrite decide_True in H by done. destruct H as (_ & HT & HE).
  split_and!; [done | done | apply timer_due_longer |].
  intros Hpos. pose proof (timer_due_not_shorter _ Hpos) as Hle.
  split; [done|]. unfold IsExpired.
  change (worker (with_Now _ p') w) with (worker p' w). rewrite HE. simpl.
  rewrite HN. apply Z.leb_le. unfold timer_due in Hle. lia.
Qed.

Lemma C7_witness :
  ∃ p', CB_OnFree 2%positive pool_idle = Ok p' ∧
    ExpiresAt (worker p' 2%positive) = Some 3000%Z ∧
    Timer p' = Some 4000%Z ∧
    IsExpired (with_Now 4000 p') 2%positive = true.
Proof.
  destruct (C7_timer_due_after_deadline 2%positive pool_idle)
    as (p' & HR & HE & HT & _ & Hx); [simpl; lia | reflexivity |].
  destruct Hx as [_ Hx]; [vm_compute; discriminate|].
  exists p'. split; [exact HR|]. split; [exact HE|]. split; [exact HT|].
  assert (Ok p' = CB_OnFree 2%positive pool_idle) as Hp
    by (symmetry; exact HR).
  vm_compute in Hp. injection Hp as ->. exact Hx.
Defined.

(** C7 as the spec words it fails three times.  With MaxIdleTime = 1 the
    timer is armed with 4 * 1 / 3 = 1, which is the deadline itself and not
    longer.  StopUnused gives every idle worker the deadline zero, not
    MaxIdleTime, and leaves the shared timer cancelled.  And with
    MaxIdleTime = 2^61 the product 4 * MaxIdleTime is outside long: no
    timer period longer than the deadline is computed. *)
Lemma C7_counterexample :
  (∃ p', CB_OnFree 1%positive pool_short_idle = Ok p' ∧
     ExpiresAt (worker p' 1%positive)
       = Some (Now pool_short_idle + MaxIdleTime pool_short_idle)%Z ∧
     Timer p' = Some (MaxIdleTime pool_short_idle) ∧
     ¬ (∀ due, Timer p' = Some due →
          (MaxIdleTime pool_short_idle < due)%Z)) ∧
  (let q := foldl (λ q e, SetExpireTimer e 0 q) pool_idle (Unused pool_idle) in
   ExpiresAt (worker q 1%positive) = Some (Now pool_idle) ∧
   ExpiresAt (worker q 1%positive)
     ≠ Some (Now pool_idle + MaxIdleTime pool_idle)%Z ∧
   ∃ p', StopUnused pool_idle = Ok p' ∧ Timer p' = None) ∧
  CB_OnFree 1%positive (with_MaxIdleTime (2 ^ 61) pool_short_idle)
    = Crash SignedOverflow.
Proof.
  split_and!.
  - eexists. split; [vm_compute; reflexivity|].
    split; [reflexivity|]. split; [reflexivity|].
    intros H. specialize (H 1%Z eq_refl). vm_compute in H. discriminate.
  - split; [reflexivity|]. split; [vm_compute; discriminate|].
    eexists. split; [vm_compute; reflexivity | reflexivity].
  - vm_compute. reflexivity.
Qed.

(** * Further properties of Pool.cpp *)

(** ** What a sweep leaves alone, invariant or not *)

Lemma evict_frame i e p p' : evict i e p = Ok p' → frame p p'.
Proof. by intros (j & _ & _ & _ & _ & _ & _ & _ & _ & ?)%evict_Ok. Qed.

Lemma sweep_frame fuel c st p st' p' :
  sweep fuel c st p = Ok (st', p') → frame p p'.
Proof.
  revert st p. induction fuel as [|fuel IH]; intros st p; simpl;
    destruct (scan p c 0 (Unused p) st) as [st1 [[i e]|]];
    try (intros [= <- <-]; apply frame_refl).
  intros H. inv_bind H. eapply frame_trans; [by eapply evict_frame | eauto].
Qed.

Lemma Locked_StopExpired_frame c p p' :
  Locked_StopExpired c p = Ok p' → frame p p'.
Proof.
  unfold Locked_StopExpired. simpl. destruct (Stopping p).
  - intros [= <-]. by constructor.
  - intros H. inv_bind H. destruct r as [st p1].
    apply sweep_frame in E. destruct E.
    destruct st; [apply SET_TIMER_Ok in H as [_ ->] | injection H as <-];
      by constructor.
Qed.

(** Every removal takes one worker out of each list and counts one stop. *)
Lemma sweep_counts fuel c st p st' p' :
  sweep fuel c st p = Ok (st', p') →
  ∃ n, length (Unused p') + n = length (Unused p) ∧
       length (All p') + n = length (All p) ∧
       ThreadsStopped p' = Nat.iter n incr (ThreadsStopped p).
Proof.
  revert st p. induction fuel as [|fuel IH]; intros st p; simpl;
    destruct (scan p c 0 (Unused p) st) as [st1 [[i e]|]] eqn:Hscan;
    try (intros [= <- <-]; by exists 0).
  intros H. inv_bind H.
  apply scan_Some in Hscan as (_ & Hi & _). rewrite Nat.sub_0_r in Hi.
  apply evict_Ok in E as (j & Hj & HA & HU & _ & _ & HS & _).
  destruct (IH _ _ H) as (n & H1 & H2 & H3). exists (S n).
  rewrite HU, length_delete in H1 by eauto.
  rewrite HA, length_delete in H2 by eauto.
  apply lookup_lt_Some in Hi, Hj.
  split_and!; [lia | lia |]. by rewrite H3, HS, Nat.iter_succ_r.
Qed.

Lemma sweep_ThreadsTotal fuel c st p st' p' :
  sweep fuel c st p = Ok (st', p') →
  ThreadsTotal p = size (All p) → ThreadsTotal p' = size (All p').
Proof.
  revert st p. induction fuel as [|fuel IH]; intros st p; simpl;
    destruct (scan p c 0 (Unused p) st) as [st1 [[i e]|]];
    try (by intros [= <- <-]).
  intros H _. inv_bind H. eapply IH; [done|].
  by apply evict_Ok in E as (j & _ & _ & _ & _ & _ & _ & _ & ? & _).
Qed.

Lemma Locked_StopExpired_ThreadsTotal c p p' :
  Locked_StopExpired c p = Ok p' →
  ThreadsTotal p = size (All p) → ThreadsTotal p' = size (All p').
Proof.
  unfold Locked_StopExpired. simpl. destruct (Stopping p).
  - by intros [= <-].
  - intros H Ht. inv_bind H. destruct r as [st p1].
    apply sweep_ThreadsTotal in E; [|done].
    destruct st; [apply SET_TIMER_Ok in H as [_ ->] | injection H as <-];
      done.
Qed.

Lemma Locked_StopExpired_no_caller_Timer p p' :
  Locked_StopExpired None p = Ok p' → Timer p' = None.
Proof.
  unfold Locked_StopExpired. simpl. destruct (Stopping p).
  - by intros [= <-].
  - intros H. inv_bind H. destruct r as [st p1].
    pose proof (sweep_no_caller _ _ _ _ _ E) as ->.
    injection H as <-. by apply sweep_Timer in E.
Qed.

(** What a sweep does to the workers it must not touch, stopping or not. *)
Lemma Locked_StopExpired_spared c p p' :
  pool_inv p → Locked_StopExpired c p = Ok p' →
  (∀ w, ExpiresAt (worker p' w) = ExpiresAt (worker p w)) ∧
  (∀ w, spared c p w →
     StopCalls (worker p' w) = StopCalls (worker p w) ∧
     (w ∈ All p → w ∈ All p') ∧ (w ∈ Unused p → w ∈ Unused p')).
Proof.
  intros Hinv. destruct (Stopping p) eqn:Hs.
  - rewrite Locked_StopExpired_stopping by done. by intros [= <-].
  - intros (st' & [] & _)%Locked_StopExpired_post; done.
Qed.

Lemma Locked_StopExpired_counts c p p' :
  Locked_StopExpired c p = Ok p' →
  ∃ n, length (Unused p') + n = length (Unused p) ∧
       length (All p') + n = length (All p) ∧
       ThreadsStopped p' = Nat.iter n incr (ThreadsStopped p).
Proof.
  unfold Locked_StopExpired. simpl. destruct (Stopping p).
  - intros [= <-]. by exists 0.
  - intros H. inv_bind H. destruct r as [st p1].
    apply sweep_counts in E as (n & ? & ? & ?). exists n.
    destruct st; [apply SET_TIMER_Ok in H as [_ ->] | injection H as <-];
      done.
Qed.

Lemma StopCalls_SetExpireTimer e ms p w :
  StopCalls (worker (SetExpireTimer e ms p) w) = StopCalls (worker p w).
Proof.
  unfold worker at 1. simpl. destruct (decide (w = e)) as [->|Hne].
  - by rewrite lookup_insert_eq.
  - by rewrite lookup_insert_ne.
Qed.

Lemma foldl_SetExpireTimer_StopCalls ms l p w :
  StopCalls (worker (foldl (λ q e, SetExpireTimer e ms q) p l) w)
  = StopCalls (worker p w).
Proof.
  revert p. induction l as [|e l IH]; intros p; simpl; [done|].
  by rewrite IH, StopCalls_SetExpireTimer.
Qed.

(** X1: StopUnused, called on a pool that is not stopping, stops every
    idle worker once and takes it out of both collections, whatever its
    deadline was; Unused ends empty, the busy workers stay in All and are
    not stopped. *)
Theorem X1_StopUnused_evicts_idle (p : Pool) :
  pool_inv p → Stopping p = false →
  ∃ p', StopUnused p = Ok p' ∧ Unused p' = [] ∧
    (∀ w, w ∈ Unused p →
       (w ∉ All p') ∧
       StopCalls (worker p' w) = S (StopCalls (worker p w))) ∧
    (∀ w, w ∉ Unused p →
       (w ∈ All p ↔ w ∈ All p') ∧
       StopCalls (worker p' w) = StopCalls (worker p w)).
Proof.
  intros Hinv Hs. unfold StopUnused.
  set (q := foldl _ p (Unused p)).
  destruct (foldl_SetExpireTimer_lists 0 (Unused p) p) as [HA HU].
  fold q in HA, HU.
  assert (pool_inv q) as Hq by (by eapply pool_inv_same_lists).
  assert (Stopping q = false) as Hsq
    by (unfold q; by rewrite foldl_SetExpireTimer_Stopping).
  assert (∀ w, StopCalls (worker q w) = StopCalls (worker p w)) as HSC
    by (intros; apply foldl_SetExpireTimer_StopCalls).
  destruct (Locked_StopExpired_running None q Hq Hsq)
    as (st' & p' & [] & _ & Hc & ->).
  rewrite Hc by done. exists p'. split; [done|].
  assert (∀ w, w ∈ Unused p → ¬ spared None q w) as Hns.
  { intros w Hw [Hn|[Hx|?]]; [| |done].
    - apply Hn. by rewrite HU.
    - unfold q in Hx. rewrite foldl_SetExpireTimer_expired in Hx by auto.
      done. }
  split_and!.
  - destruct (Unused p') as [|w l] eqn:HU'; [done|].
    assert (w ∈ Unused p) as Hw.
    { rewrite <-HU. apply sp_Unused0. set_solver. }
    destruct (sp_evicted0 w (Hns w Hw)) as (_ & Hn & _).
    destruct Hn. set_solver.
  - intros w Hw. destruct (sp_evicted0 w (Hns w Hw)) as (? & _ & HS).
    split; [done|]. by rewrite HS, HSC.
  - intros w Hn.
    destruct (sp_spared0 w) as (HS & HinA & _); [left; by rewrite HU|].
    split; [|by rewrite HS, HSC]. split.
    + intros ?. apply HinA. by rewrite HA.
    + intros ?%sp_All0. by rewrite <-HA.
Qed.

Lemma X1_witness :
  ∃ p', StopUnused pool_idle = Ok p' ∧ Unused p' = [] ∧
    All p' = [2%positive] ∧
    StopCalls (worker p' 1%positive) = 1 ∧
    StopCalls (worker p' 2%positive) = 0.
Proof.
  destruct (X1_StopUnused_evicts_idle pool_idle) as (p' & HR & HU & H1 & H2).
  - apply (bool_decide_unpack _). vm_compute. exact I.
  - reflexivity.
  - exists p'. split; [exact HR|]. split; [exact HU|].
    assert (Ok p' = StopUnused pool_idle) as Hp by (symmetry; exact HR).
    vm_compute in Hp. injection Hp as ->. by split_and!.
Defined.

(** X2: PopUnused hands out the front of Unused, the worker idle for the
    longest time.  That worker has its deadline disarmed, is not stopped by
    the sweep PopUnused runs even if the deadline had elapsed, stays in All
    and is no longer in Unused; allCount is |All| as PopUnused found it. *)
Theorem X2_PopUnused_hands_out_front (p : Pool) (w : Worker)
    (rest : list Worker) :
  pool_inv p → Unused p = w :: rest →
  ∃ p', PopUnused p = Ok (Some w, length (All p), p') ∧
    w ∈ All p' ∧ (w ∉ Unused p') ∧ Unused p' ⊆ rest ∧
    StopCalls (worker p' w) = StopCalls (worker p w) ∧
    ExpiresAt (worker p' w) = None.
Proof.
  intros Hinv HU. pose proof Hinv as (HndA & HndU & Hsub).
  rewrite HU in HndU, Hsub. apply NoDup_cons in HndU as [Hw Hrest].
  unfold PopUnused. rewrite HU.
  set (q := CancelExpireTimer _ _).
  assert (pool_inv q) as Hq.
  { split_and!; simpl; [done..|]. set_solver. }
  destruct (Locked_StopExpired_no_caller q Hq) as [p' Hp']. rewrite Hp'.
  exists p'. split; [done|].
  destruct (Locked_StopExpired_lists _ _ _ Hq Hp') as (_ & HU' & Hkeep).
  destruct (Locked_StopExpired_spared _ _ _ Hq Hp') as (Hexp & Hsp).
  destruct (Hsp w) as (HS & _); [by left|].
  split_and!.
  - apply Hkeep; simpl; [done|]. set_solver.
  - intros ?%HU'. done.
  - done.
  - rewrite HS. unfold q, worker. simpl. by rewrite lookup_insert_eq.
  - rewrite Hexp. unfold q, worker. simpl. by rewrite lookup_insert_eq.
Qed.

Lemma X2_witness :
  ∃ p', PopUnused pool_expired = Ok (Some 1%positive, 3, p') ∧
    1%positive ∈ All p' ∧ StopCalls (worker p' 1%positive) = 0 ∧
    ExpiresAt (worker p' 1%positive) = None.
Proof.
  destruct (X2_PopUnused_hands_out_front pool_expired 1%positive [2%positive])
    as (p' & HR & HA & _ & _ & HS & HE).
  - apply (bool_decide_unpack _). vm_compute. exact I.
  - reflexivity.
  - exists p'. split_and!; [exact HR | exact HA | exact HS | exact HE].
Defined.

(** X3: a sweep that runs for no caller never re-arms the shared timer.
    So after StopUnused, and after a PopUnused that took a worker, the
    timer is cancelled, also when idle workers whose deadline is still to
    come remain in Unused. *)
Theorem X3_timer_cancelled_without_caller (p p' : Pool) :
  (StopUnused p = Ok p' ∨ ∃ w n, PopUnused p = Ok (Some w, n, p')) →
  Timer p' = None.
Proof.
  intros [H|(w & n & H)].
  - by eapply Locked_StopExpired_no_caller_Timer.
  - apply PopUnused_Ok in H as (_ & H).
    destruct (Unused p) as [|w' rest]; destruct H as [H1 H2]; [done|].
    by eapply Locked_StopExpired_no_caller_Timer.
Qed.

(** X4: a sweep on a pool that is not stopping stops exactly the idle
    workers whose deadline has elapsed and that are not the caller, each of
    them once, and erases them from Unused and All.  Every other worker
    keeps its Stop count and its membership.  One stop is counted in
    ThreadsStopped for every worker erased. *)
Theorem X4_sweep_evicts_exactly_the_expired (c : option Worker)
    (p p' : Pool) :
  pool_inv p → Stopping p = false → Locked_StopExpired c p = Ok p' →
  (∀ w, w ∈ Unused p → IsExpired p w = true → is_caller c w = false →
     (w ∉ All p') ∧ (w ∉ Unused p') ∧
     StopCalls (worker p' w) = S (StopCalls (worker p w))) ∧
  (∀ w, (w ∉ Unused p) ∨ IsExpired p w = false ∨ is_caller c w = true →
     (w ∈ All p' ↔ w ∈ All p) ∧ (w ∈ Unused p' ↔ w ∈ Unused p) ∧
     StopCalls (worker p' w) = StopCalls (worker p w)) ∧
  ∃ n, length (Unused p') + n = length (Unused p) ∧
       length (All p') + n = length (All p) ∧
       ThreadsStopped p' = Nat.iter n incr (ThreadsStopped p).
Proof.
  intros Hinv Hs H. split_and!; [..|by eapply Locked_StopExpired_counts].
  - apply Locked_StopExpired_post in H as (st' & [] & _); [|done..].
    intros w Hw Hx Hc. apply sp_evicted0. by apply not_spared.
  - apply Locked_StopExpired_post in H as (st' & [] & _); [|done..].
    intros w Hw. destruct (sp_spared0 w Hw) as (? & ? & ?).
    split_and!; [split; auto | split; auto | done].
Qed.

Lemma X4_witness :
  ∃ p', Locked_StopExpired (Some 1%positive) pool_expired = Ok p' ∧
    (2%positive ∉ All p') ∧ StopCalls (worker p' 2%positive) = 1 ∧
    3%positive ∈ All p' ∧ StopCalls (worker p' 3%positive) = 0.
Proof.
  eexists. split; [vm_compute; reflexivity|].
  edestruct (X4_sweep_evicts_exactly_the_expired (Some 1%positive)
               pool_expired) as (H1 & H2 & _).
  - apply (bool_decide_unpack _). vm_compute. exact I.
  - reflexivity.
  - vm_compute. reflexivity.
  - destruct (H1 2%positive) as (HA & _ & HS);
      [apply (bool_decide_unpack _); vm_compute; exact I
      | reflexivity | reflexivity |].
    destruct (H2 3%positive) as (HA3 & _ & HS3);
      [left; apply (bool_decide_unpack _); vm_compute; exact I|].
    split_and!; [exact HA | exact HS | | exact HS3].
    apply HA3. apply (bool_decide_unpack _). vm_compute. exact I.
Defined.

Lemma X3_witness :
  ∃ p', PopUnused pool_two_idle = Ok (Some 1%positive, 2, p') ∧
    Unused p' = [2%positive] ∧
    ExpiresAt (worker p' 2%positive) = Some 3000%Z ∧
    Timer pool_two_idle = Some 4000%Z ∧ Timer p' = None.
Proof.
  eexists. split; [vm_compute; reflexivity|].
  split; [reflexivity|]. split; [reflexivity|]. split; [reflexivity|].
  eapply (X3_timer_cancelled_without_caller pool_two_idle).
  right. eexists _, _. vm_compute. reflexivity.
Defined.

(** ** Pool::Stop, once more *)

Lemma foldl_stop_one_StopCalls l p w :
  NoDup l →
  StopCalls (worker (foldl stop_one p l) w) =
    if decide (w ∈ l) then S (StopCalls (worker p w))
    else StopCalls (worker p w).
Proof.
  intros Hnd. revert p. induction Hnd as [|e l He Hnd IH]; intros p.
  - done.
  - change (foldl stop_one p (e :: l)) with (foldl stop_one (stop_one p e) l).
    rewrite IH, worker_stop_one.
    destruct (decide (w = e)) as [->|Hne].
    + rewrite (decide_False (P := e ∈ l)) by done.
      rewrite (decide_True (P := e ∈ e :: l)); [done|]. set_solver.
    + destruct (decide (w ∈ l)).
      * rewrite (decide_True (P := w ∈ e :: l)); [done|]. set_solver.
      * rewrite (decide_False (P := w ∈ e :: l)); [done|]. set_solver.
Qed.

Lemma foldl_stop_one_counts l p :
  ThreadsStopped (foldl stop_one p l)
  = Nat.iter (length l) incr (ThreadsStopped p) ∧
  StopEvent (foldl stop_one p l) = StopEvent p.
Proof.
  revert p. induction l as [|e l IH]; intros p; [done|].
  cbn [foldl length]. destruct (IH (stop_one p e)) as [-> ->].
  split; [|done]. by rewrite Nat.iter_succ_r.
Qed.

(** X5: Stop, when its assertion lets it through, has stopped every
    worker of All exactly once, busy or idle, and no other worker; it has
    counted |All| stops, set the stopping flag and raised the stop event. *)
Theorem X5_Stop_stops_every_worker_once (p p' : Pool) :
  NoDup (All p) → Stop p = Ok p' →
  (∀ w, StopCalls (worker p' w) =
          if decide (w ∈ All p) then S (StopCalls (worker p w))
          else StopCalls (worker p w)) ∧
  ThreadsStopped p' = Nat.iter (length (All p)) incr (ThreadsStopped p) ∧
  Stopping p' = true ∧ StopEvent p' = true.
Proof.
  intros Hnd H. pose proof (Stop_Stopping _ _ H) as Hs.
  unfold Stop, Stop_clear in H. case_decide; [|done]. injection H as <-.
  unfold worker. simpl. unfold Stop_before_clear.
  destruct (foldl_stop_one_counts (All (SetStopping p)) (SetStopping p))
    as [HT HE].
  split_and!; [|done..].
  intros w. apply (foldl_stop_one_StopCalls (All p) (SetStopping p) w Hnd).
Qed.

Lemma X5_witness :
  ∃ p', Stop (Push L_Unused 3%positive pool_expired) = Ok p' ∧
    StopCalls (worker p' 3%positive) = 1 ∧
    StopCalls (worker p' 4%positive) = 0 ∧
    ThreadsStopped p' = 3%Z ∧ Stopping p' = true.
Proof.
  eexists. split; [vm_compute; reflexivity|].
  edestruct (X5_Stop_stops_every_worker_once
               (Push L_Unused 3%positive pool_expired)) as (HS & HT & Hs & _).
  - apply (bool_decide_unpack _). vm_compute. exact I.
  - vm_compute. reflexivity.
  - split_and!; [exact (HS 3%positive) | exact (HS 4%positive)
                 | exact HT | exact Hs].
Defined.

(** X6: Stop called while a worker is busy (in All and not in Unused) stops
    at its assertion All.size() == Unused.size(): the two sizes differ. *)
Theorem X6_Stop_with_busy_worker_asserts (p : Pool) (w : Worker) :
  pool_inv p → w ∈ All p → w ∉ Unused p →
  Stop p = Crash (AssertionFailed A_Stop_sizes).
Proof.
  intros (HndA & HndU & Hsub) HwA HwU.
  unfold Stop, Stop_clear. destruct (Stop_before_clear_lists p) as [-> ->].
  rewrite decide_False; [done|]. intros Hlen.
  assert (Unused p ≡ₚ All p) as Hperm.
  { apply submseteq_length_Permutation; [by apply NoDup_submseteq | lia]. }
  apply HwU. by rewrite Hperm.
Qed.

Lemma X6_witness : Stop pool_idle = Crash (AssertionFailed A_Stop_sizes).
Proof.
  apply (X6_Stop_with_busy_worker_asserts pool_idle 2%positive).
  - apply (bool_decide_unpack _). vm_compute. exact I.
  - apply (bool_decide_unpack _). vm_compute. exact I.
  - apply (bool_decide_unpack _). vm_compute. exact I.
Defined.

(** ** Pool::Run, once more *)

Lemma exec_steps_app l1 l2 p :
  exec_steps (l1 ++ l2) p = let! q := exec_steps l1 p in exec_steps l2 q.
Proof.
  revert p. induction l1 as [|s l1 IH]; intros p; simpl; [done|].
  destruct (exec_step s p); simpl; [apply IH | done].
Qed.

(** What a turn of the loop that finds no wait result can end in. *)
Lemma Run_turn_cases t0 fr ok p x p' :
  Run_loop t0 fr ok [] p = Ok (x, p') →
  (Stopping p = true ∧ x = Leave None ∧ p' = p) ∨
  (Stopping p = false ∧
   ∃ w n, PopUnused p = Ok (Some w, n, p') ∧ x = Leave (Some w)) ∨
  (Stopping p = false ∧ Unused p = [] ∧ MaxThreads p ≤ length (All p) ∧
   ((Mode p = FAIL ∧ x = Return_nullptr ∧
     p' = elapsed t0 (with_Errors (incr (Errors p)) p)) ∨
    (Mode p = WAIT ∧ x = Waiting ∧ p' = p))) ∨
  (Stopping p = false ∧ Unused p = [] ∧ length (All p) < MaxThreads p ∧
   ((ok = true ∧ x = Leave (Some fr) ∧
     p' = Push L_All fr
            (with_Workers (<[fr := new_Worker]> (Workers p)) p)) ∨
    (ok = false ∧ x = Return_nullptr ∧
     p' = elapsed t0 (with_Errors (incr (Errors p)) p)))).
Proof.
  rewrite Run_loop_unfold. destruct (Stopping p) eqn:Hs.
  { intros [= <- <-]. by left. }
  intros H. inv_bind H. destruct r as [[t n] p1].
  destruct t as [w|].
  { injection H as <- <-. right; left. eauto. }
  apply PopUnused_Ok in E as (-> & HU).
  destruct (Unused p) as [|w rest] eqn:HUp; destruct HU as [? HU]; [|done].
  subst p1. right; right. case_decide.
  - left. split_and!; [done..|].
    destruct (Mode p); injection H as <- <-; auto.
  - right. split_and!; [done | done | lia |].
    destruct ok; injection H as <- <-; auto.
Qed.

(** A call of Run_loop is some batches of steps by other threads, each
    ended by a wait result, and then one last turn, or a return on
    OBJECT_0 right after a batch. *)
Lemma Run_loop_last t0 fr ok waits p x p' :
  Run_loop t0 fr ok waits p = Ok (x, p') →
  ∃ k q, exec_steps (concat (fst <$> take k waits)) p = Ok q ∧
    (Run_loop t0 fr ok [] q = Ok (x, p') ∨
     (x = Return_nullptr ∧ p' = elapsed t0 q)).
Proof.
  revert p. induction waits as [|[steps rc] waits IH]; intros p H.
  { exists 0, p. auto. }
  assert (Run_loop t0 fr ok [] p = Ok (x, p') ∨
          Stopping p = false ∧ Unused p = [] ∧
          MaxThreads p ≤ length (All p) ∧ Mode p = WAIT) as [?|Hw].
  { rewrite Run_loop_unfold in H. rewrite Run_loop_unfold.
    destruct (Stopping p); [by left|].
    destruct (PopUnused p) as [[[t n] p1]|f] eqn:HP; simpl in *; [|done].
    destruct t as [w|]; [by left|].
    apply PopUnused_Ok in HP as (-> & HU).
    destruct (Unused p) as [|w rest]; destruct HU as [? HU]; [|done].
    subst p1. case_decide; [|by left].
    destruct (Mode p); [|by left]. by right. }
  { exists 0, p. auto. }
  destruct Hw as (Hs & HU & Hcap & Hmode).
  rewrite Run_loop_unfold, Hs in H. unfold PopUnused in H.
  rewrite HU in H. simpl in H. rewrite decide_True, Hmode in H by done.
  inv_bind H.
  assert (∀ k q, exec_steps (concat (fst <$> take k waits)) r = Ok q →
            exec_steps (concat (fst <$> take (S k) ((steps, rc) :: waits))) p
            = Ok q) as Hshift.
  { intros k q Hq. simpl. by rewrite exec_steps_app, E. }
  destruct rc;
    [injection H as <- <-; exists 1, r; split; [|by right];
       simpl; by rewrite app_nil_r|..];
    (destruct (IH _ H) as (k & q & Hq & Hlast);
     exists (S k), q; split; [by apply Hshift | done]).
Qed.


(** X7: with no idle worker and |All| below MaxThreads, Run makes a worker
    and never waits, whatever the overflow mode.  When Start fails the
    worker is dropped: Run returns nullptr, counts one error and leaves
    All, Unused and the worker objects as they were.  When Start succeeds
    the worker is appended to All, ThreadsTotal follows, and the task goes
    to that worker: its handle and id are what Run returns. *)
Theorem X7_Run_grows_below_capacity (env : RunEnv) (waits : Waits)
    (p : Pool) :
  Stopping p = false → Unused p = [] → length (All p) < MaxThreads p →
  (start_ok env = false →
     ∃ p', Run env waits p = Ok (Returned None 0, p') ∧
       All p' = All p ∧ Unused p' = [] ∧ Workers p' = Workers p ∧
       Errors p' = incr (Errors p)) ∧
  (start_ok env = true →
     ∀ h id, invoke env (fresh env) = (Some h, id) →
     ∃ p', Run env waits p = Ok (Returned (Some h) id, p') ∧
       All p' = All p ++ [fresh env] ∧ Unused p' = [] ∧
       ThreadsTotal p' = (size (All p) + 1)%Z ∧
       worker p' (fresh env) = new_Worker ∧
       Errors p' = Errors p).
Proof.
  intros Hs HU Hcap.
  assert (Run env waits p =
          if start_ok env then
            Run_invoke (Now p) (invoke env) (Some (fresh env))
              (Push L_All (fresh env)
                 (with_Workers (<[fresh env := new_Worker]> (Workers p)) p))
          else Ok (Returned None 0,
                   elapsed (Now p) (with_Errors (incr (Errors p)) p))) as HR.
  { unfold Run, Run_at. rewrite Run_loop_unfold, Hs.
    unfold PopUnused. rewrite HU. simpl.
    rewrite decide_False by lia. by destruct (start_ok env). }
  split.
  - intros Hok. rewrite Hok in HR. eexists. split; [done|]. by split_and!.
  - intros Hok h id Hinv. rewrite Hok in HR. simpl in HR.
    rewrite Hinv in HR. eexists. split; [done|]. simpl.
    split_and!; [done | done | | | done].
    + unfold size. rewrite length_app. simpl. lia.
    + unfold worker. simpl. by rewrite lookup_insert_eq.
Qed.

Lemma X7_witness :
  (∃ p', Run (env_accept 2%positive) [] pool_busy
         = Ok (Returned (Some 2%positive) 2, p') ∧
     All p' = [1%positive; 2%positive] ∧ ThreadsTotal p' = 2%Z) ∧
  (∃ p', Run {| fresh := 2%positive; start_ok := false;
                invoke := λ w, (Some w, Zpos w) |} [] pool_busy
         = Ok (Returned None 0, p') ∧
     All p' = [1%positive] ∧ Errors p' = 1%Z).
Proof.
  split.
  - destruct (X7_Run_grows_below_capacity (env_accept 2%positive) [] pool_busy)
      as [_ H]; [reflexivity | reflexivity | simpl; unfold MAX_THREADS; lia|].
    destruct (H eq_refl 2%positive 2%Z eq_refl) as (p' & HR & HA & _ & HT & _).
    exists p'. by split_and!.
  - destruct (X7_Run_grows_below_capacity
                {| fresh := 2%positive; start_ok := false;
                   invoke := λ w, (Some w, Zpos w) |} [] pool_busy)
      as [H _]; [reflexivity | reflexivity | simpl; unfold MAX_THREADS; lia|].
    destruct (H eq_refl) as (p' & HR & HA & _ & _ & HE).
    exists p'. by split_and!.
Defined.

(** X8: while a worker is idle, Run makes no new worker and does not
    wait, whatever MaxThreads and the overflow mode are: it pops the front
    of Unused and hands the task to that worker. *)
Theorem X8_Run_reuses_idle_worker (env : RunEnv) (waits : Waits) (p : Pool)
    (w : Worker) (rest : list Worker) :
  pool_inv p → Stopping p = false → Unused p = w :: rest →
  ∃ p1, PopUnused p = Ok (Some w, length (All p), p1) ∧
    Run env waits p = Run_invoke (Now p) (invoke env) (Some w) p1 ∧
    All p1 ⊆ All p ∧
    (∀ h id, invoke env w = (Some h, id) →
       ∃ p', Run env waits p = Ok (Returned (Some h) id, p') ∧
         All p' = All p1 ∧ Unused p' = Unused p1 ∧ w ∉ Unused p').
Proof.
  intros Hinv Hs HU. destruct (PopUnused_total p Hinv) as [[[t n] p1] HP].
  pose proof (PopUnused_Ok _ _ _ _ HP) as (-> & Ht). rewrite HU in Ht.
  destruct Ht as [-> _].
  destruct (PopUnused_pool_inv _ _ _ _ Hinv HP) as (_ & HA & _ & Hn).
  exists p1. split; [done|].
  assert (Run env waits p = Run_invoke (Now p) (invoke env) (Some w) p1)
    as HR.
  { unfold Run, Run_at. by rewrite Run_loop_unfold, Hs, HP. }
  split_and!; [done..|].
  intros h id Hi. rewrite HR. simpl. rewrite Hi. eexists. by split_and!.
Qed.

Lemma X8_witness :
  ∃ p', Run (env_accept 9%positive) []
          (with_Mode FAIL (with_MaxThreads 1 pool_idle))
        = Ok (Returned (Some 1%positive) 1, p') ∧
    All p' = [1%positive; 2%positive] ∧ Unused p' = [].
Proof.
  destruct (X8_Run_reuses_idle_worker (env_accept 9%positive) []
              (with_Mode FAIL (with_MaxThreads 1 pool_idle)) 1%positive [])
    as (p1 & HP & _ & _ & H).
  - apply (bool_decide_unpack _). vm_compute. exact I.
  - reflexivity.
  - reflexivity.
  - destruct (H 1%positive 1%Z eq_refl) as (p' & HR & HA & HU & _).
    exists p'. split; [exact HR|].
    assert (Ok (Some 1%positive, 2, p1)
            = PopUnused (with_Mode FAIL (with_MaxThreads 1 pool_idle)))
      as Hp by (symmetry; exact HP).
    vm_compute in Hp. injection Hp as ->.
    rewrite HA, HU. by split.
Defined.
(** X9: a handle returned by Run is the one Invoke gave for a worker of
    the pool, with that worker's id in *pid, and the worker is then busy:
    in All and not in Unused.  When Run returns nullptr, *pid is 0. *)
Theorem X9_Run_handle_is_of_a_busy_worker (env : RunEnv) (waits : Waits)
    (p p' : Pool) (h : option HEvent) (id : Z) :
  pool_inv p → fresh env ∉ All p → steps_ok (concat (fst <$> waits)) p →
  Run env waits p = Ok (Returned h id, p') →
  match h with
  | Some e => ∃ t, invoke env t = (Some e, id) ∧ t ∈ All p' ∧ t ∉ Unused p'
  | None => id = 0%Z
  end.
Proof.
  intros Hinv Hfr Hok. unfold Run, Run_at. intros H. inv_bind H.
  destruct r as [x p1].
  apply Run_loop_pool_inv in E as [_ Hx]; [|done..]. simpl in H.
  destruct x as [[t|]| |]; simpl in H; try done.
  - destruct (invoke env t) as [[e|] i] eqn:Hi; injection H as <- <- <-.
    + exists t. by destruct Hx.
    + done.
  - by injection H as <- <- <-.
Qed.

Lemma X9_witness :
  ∃ t, invoke (env_accept 9%positive) t = (Some 1%positive, 1%Z) ∧
    t ∈ [1%positive; 2%positive].
Proof.
  destruct (X9_Run_handle_is_of_a_busy_worker (env_accept 9%positive) []
              pool_idle
              (elapsed 0 (CancelWaitableTimer
                 (CancelExpireTimer 1%positive
                    (with_ThreadsUnused 0 (with_Unused [] pool_idle)))))
              (Some 1%positive) 1%Z)
    as (t & Hi & HA & _).
  - apply (bool_decide_unpack _). vm_compute. exact I.
  - apply (bool_decide_unpack _). vm_compute. exact I.
  - exact I.
  - vm_compute. reflexivity.
  - exists t. split; [exact Hi | exact HA].
Defined.



(** ** The diagnostics *)

Lemma foldl_SetExpireTimer_ThreadsTotal ms l p :
  ThreadsTotal (foldl (λ q e, SetExpireTimer e ms q) p l) = ThreadsTotal p.
Proof.
  revert p. induction l as [|e l IH]; intros p; simpl; [done|].
  by rewrite IH.
Qed.

Lemma PopUnused_ThreadsTotal p (t : option Worker) n p' :
  PopUnused p = Ok (t, n, p') →
  ThreadsTotal p = size (All p) → ThreadsTotal p' = size (All p').
Proof.
  intros (_ & H)%PopUnused_Ok Ht. destruct (Unused p) as [|w rest].
  - by destruct H as [_ ->].
  - destruct H as [_ H]. by apply Locked_StopExpired_ThreadsTotal in H.
Qed.

Lemma exec_step_ThreadsTotal s p p' :
  exec_step s p = Ok p' →
  ThreadsTotal p = size (All p) → ThreadsTotal p' = size (All p').
Proof.
  destruct s; simpl.
  - unfold SetMaxThreads. case_decide; by intros [= <-].
  - by intros [= <-].
  - by intros [= <-].
  - by intros [= <-].
  - by intros [= <-].
  - unfold Stop, Stop_clear. case_decide; by intros [= <-].
  - unfold StopUnused. intros H Ht.
    apply Locked_StopExpired_ThreadsTotal in H; [done|].
    rewrite foldl_SetExpireTimer_ThreadsTotal.
    by destruct (foldl_SetExpireTimer_lists 0 (Unused p) p) as [-> _].
  - intros H Ht. inv_bind H. injection H as <-. destruct r as [[t n] q].
    simpl. by apply (PopUnused_ThreadsTotal _ _ _ _ E).
  - unfold CB_OnTimer. destruct locked; [|by intros [= <-]].
    intros H. apply (Locked_StopExpired_ThreadsTotal _ _ _ H).
  - unfold CB_OnFree. intros H. inv_bind H. injection H as <-.
    case_decide; [apply SET_TIMER_Ok in E as [_ ->] | injection E as <-];
      done.
  - by intros [= <-].
Qed.

Lemma exec_steps_ThreadsTotal l p p' :
  exec_steps l p = Ok p' →
  ThreadsTotal p = size (All p) → ThreadsTotal p' = size (All p').
Proof.
  revert p. induction l as [|s l IH]; intros p; simpl.
  - by intros [= <-].
  - intros H Ht. inv_bind H. apply (IH _ H).
    by apply (exec_step_ThreadsTotal _ _ _ E).
Qed.

(** X12: ThreadsTotal is |All| wherever the lock is free: every operation
    that takes the lock hands the equation on.  (ThreadsUnused has no such
    law: see C6.) *)
Theorem X12_ThreadsTotal_is_size_of_All (o : Op) (p p' : Pool) :
  ThreadsTotal p = size (All p) → exec_op o p = Ok p' →
  ThreadsTotal p' = size (All p').
Proof.
  intros Ht. destruct o as [s|list t|c|env waits]; simpl.
  - intros H. by apply (exec_step_ThreadsTotal _ _ _ H).
  - by intros [= <-].
  - intros H. by apply (Locked_StopExpired_ThreadsTotal _ _ _ H).
  - intros H. inv_bind H. injection H as <-. destruct r as [res q].
    unfold Run, Run_at in E. inv_bind E. destruct r as [x p1].
    apply Run_loop_last in E0 as (k & q0 & Hq & Hlast).
    apply exec_steps_ThreadsTotal in Hq; [|done]. simpl in E.
    destruct Hlast as [Hturn|[-> ->]].
    + apply Run_turn_cases in Hturn
        as [(_ & -> & ->)|[(_ & w & n & HP & ->)|
            [(_ & _ & _ & [(_ & -> & ->)|(_ & -> & ->)])|
             (_ & _ & _ & [(_ & -> & ->)|(_ & -> & ->)])]]];
        simpl in E; try done.
      * apply PopUnused_ThreadsTotal in HP; [|done].
        by destruct (invoke env w) as [[e|] i]; injection E as <- <-.
      * by injection E as <- <-.
      * by injection E as <- <-.
      * by destruct (invoke env (fresh env)) as [[e|] i];
          injection E as <- <-.
      * by injection E as <- <-.
    + by injection E as <- <-.
Qed.

Lemma X12_witness :
  ∃ p', exec_op (Op_step (S_CB_OnFree 2%positive)) pool_idle = Ok p' ∧
    ThreadsTotal p' = 2%Z ∧ All p' = [1%positive; 2%positive].
Proof.
  eexists. split; [vm_compute; reflexivity|]. split; [|reflexivity].
  eapply (X12_ThreadsTotal_is_size_of_All
            (Op_step (S_CB_OnFree 2%positive)) pool_idle).
  - reflexivity.
  - vm_compute. reflexivity.
Defined.

(** ** The callbacks *)

(** X13: CB_OnTimer counts every tick, whether or not try_lock gets the
    lock; without the lock it does nothing else, so expired workers stay
    until a later sweep. *)
Theorem X13_CB_OnTimer_counts_every_tick (w : option Worker)
    (locked : bool) (p p' : Pool) :
  CB_OnTimer w locked p = Ok p' →
  OnTimerCalls p' = incr (OnTimerCalls p) ∧
  (locked = false → p' = with_OnTimerCalls (incr (OnTimerCalls p)) p).
Proof.
  unfold CB_OnTimer. destruct locked.
  - intros []%Locked_StopExpired_frame. split; [done|]. discriminate.
  - by intros [= <-].
Qed.

Lemma X13_witness :
  ∃ p', CB_OnTimer None false pool_expired = Ok p' ∧
    OnTimerCalls p' = 1%Z ∧ Unused p' = [1%positive; 2%positive].
Proof.
  eexists. split; [reflexivity|]. split; [|reflexivity].
  eapply (X13_CB_OnTimer_counts_every_tick None false pool_expired).
  reflexivity.
Defined.

Lemma StopCalls_CB_OnFree w p p' v :
  CB_OnFree w p = Ok p' → StopCalls (worker p' v) = StopCalls (worker p v).
Proof.
  unfold CB_OnFree. intros H. inv_bind H. injection H as <-.
  case_decide; [apply SET_TIMER_Ok in E as [_ ->] | injection E as <-];
    [|done].
  apply (StopCalls_SetExpireTimer w (MaxIdleTime p) p v).
Qed.

(** X14: idle workers are handed out in the order in which they reported
    idle.  After the idle callback for [w], PopUnused returns the worker
    that was at the front of Unused before; when none was idle it returns
    [w] itself, with its deadline disarmed and without a Stop, and Unused
    is empty again. *)
Theorem X14_idle_workers_are_handed_out_in_turn (w : Worker)
    (p p1 : Pool) :
  pool_inv p → CB_OnFree_pre w p → CB_OnFree w p = Ok p1 →
  ∃ p2, PopUnused p1 = Ok (Some (hd w (Unused p)), length (All p), p2) ∧
    (Unused p = [] →
       Unused p2 = [] ∧ All p2 = All p ∧
       ExpiresAt (worker p2 w) = None ∧
       StopCalls (worker p2 w) = StopCalls (worker p w)).
Proof.
  intros Hinv Hpre H.
  pose proof (CB_OnFree_pool_inv _ _ _ Hinv Hpre H) as Hinv1.
  pose proof (StopCalls_CB_OnFree _ _ _ w H) as HSC.
  apply CB_OnFree_Ok in H as (HA & HU & _).
  destruct (Unused p) as [|u rest] eqn:HUp; simpl in *.
  - unfold PopUnused. rewrite HU, HA. simpl.
    unfold Locked_StopExpired. simpl.
    destruct (Stopping p1); simpl; eexists; (split; [done|]); intros _;
      simpl; unfold worker; simpl; rewrite lookup_insert_eq; simpl;
      by split_and!.
  - destruct (PopUnused_total p1 Hinv1) as [[[t n] p2] HP].
    pose proof (PopUnused_Ok _ _ _ _ HP) as (-> & Ht).
    rewrite HU in Ht. destruct Ht as [-> _].
    exists p2. rewrite <-HA. by split.
Qed.

Lemma X14_witness :
  ∃ p1 p2, CB_OnFree 2%positive pool_idle = Ok p1 ∧
    PopUnused p1 = Ok (Some 1%positive, 2, p2).
Proof.
  assert (∃ p1, CB_OnFree 2%positive pool_idle = Ok p1) as [p1 H1]
    by (eexists; vm_compute; reflexivity).
  destruct (X14_idle_workers_are_handed_out_in_turn 2%positive pool_idle p1)
    as (p2 & HP & _).
  - apply (bool_decide_unpack _). vm_compute. exact I.
  - reflexivity.
  - exact H1.
  - exists p1, p2. split; [exact H1 | exact HP].
Defined.

(** X15: take the state the idle callback has left for a worker that went
    idle over the idle capacity, and let nothing happen to the pool but
    time going by: the worker is not reused and no other operation runs.
    Once at least MaxIdleTime has gone by, Locked_StopExpired run on that
    state for another caller or for none stops the worker and erases it
    from All and Unused; 4/3 of MaxIdleTime, the period of the shared
    timer, is such a time when MaxIdleTime is not negative.  (A sweep run
    for the worker itself spares it: C8.) *)
Theorem X15_idle_worker_is_evicted_after_MaxIdleTime (c : option Worker)
    (w : Worker) (p p1 : Pool) (dt : Z) :
  pool_inv p → CB_OnFree_pre w p → Stopping p = false →
  MaxUnusedThreads p < length (Unused p) + 1 →
  CB_OnFree w p = Ok p1 →
  is_caller c w = false → (MaxIdleTime p ≤ dt)%Z →
  ∃ p2, Locked_StopExpired c (with_Now (Now p1 + dt)%Z p1) = Ok p2 ∧
    (w ∉ All p2) ∧ (w ∉ Unused p2) ∧
    StopCalls (worker p2 w) = S (StopCalls (worker p w)).
Proof.
  intros Hinv Hpre Hs Hcap H Hc Hdt.
  pose proof (CB_OnFree_pool_inv _ _ _ Hinv Hpre H) as Hinv1.
  pose proof (StopCalls_CB_OnFree _ _ _ w H) as HSC.
  assert (Stopping p1 = Stopping p ∧ MaxIdleTime p1 = MaxIdleTime p)
    as [Hs1 Hidle].
  { revert H. unfold CB_OnFree. intros H. inv_bind H. injection H as <-.
    case_decide; [apply SET_TIMER_Ok in E as [_ ->] | injection E as <-];
      done. }
  apply CB_OnFree_Ok in H as (HA & HU & _ & _ & HN & H).
  rewrite decide_True in H by done. destruct H as (Hlong & _ & HE).
  set (q := with_Now (Now p1 + dt)%Z p1).
  assert (pool_inv q) as Hq by done.
  assert (Stopping q = false) as Hsq by (simpl; congruence).
  destruct (Locked_StopExpired_running c q Hq Hsq)
    as (st' & p2 & [] & _ & _ & HR).
  assert (¬ spared c q w) as Hns.
  { apply not_spared; [| |done].
    - simpl. rewrite HU. set_solver.
    - unfold IsExpired. change (worker q w) with (worker p1 w).
      rewrite HE. simpl. apply Z.leb_le. lia. }
  destruct (sp_evicted0 w Hns) as (HnA & HnU & HS).
  assert (StopCalls (worker p2 w) = S (StopCalls (worker p w))) as HS'.
  { rewrite HS. change (worker q w) with (worker p1 w). by rewrite HSC. }
  destruct st'.
  - exists (with_Timer (Some (timer_due (MaxIdleTime p2))) p2).
    split; [|by split_and!]. rewrite HR. unfold SET_TIMER.
    destruct sp_frame0. simpl in fr_MaxIdleTime0.
    by rewrite fr_MaxIdleTime0, Hidle, Hlong.
  - exists p2. by split_and!.
Qed.

Lemma X15_witness :
  ∃ p1 p2, CB_OnFree 2%positive pool_idle = Ok p1 ∧
    Locked_StopExpired None (with_Now (Now p1 + 4000)%Z p1) = Ok p2 ∧
    (2%positive ∉ All p2) ∧ StopCalls (worker p2 2%positive) = 1.
Proof.
  assert (∃ p1, CB_OnFree 2%positive pool_idle = Ok p1) as [p1 H1]
    by (eexists; vm_compute; reflexivity).
  destruct (X15_idle_worker_is_evicted_after_MaxIdleTime None 2%positive
              pool_idle p1 4000%Z) as (p2 & HR & HA & _ & HS).
  - apply (bool_decide_unpack _). vm_compute. exact I.
  - reflexivity.
  - reflexivity.
  - simpl. lia.
  - exact H1.
  - reflexivity.
  - vm_compute. discriminate.
  - exists p1, p2. split_and!; [exact H1 | exact HR | exact HA | exact HS].
Defined.

(** ** Sweeping twice *)

Lemma scan_flag_inv p c i l st st' r :
  scan p c i l st = (st', r) → st' = true →
  st = true ∨ ∃ e, e ∈ l ∧ IsExpired p e = true ∧ is_caller c e = true.
Proof.
  revert i st. induction l as [|x l IH]; intros i st; simpl.
  - intros [= -> _]. auto.
  - destruct (IsExpired p x) eqn:Hx; simpl.
    + destruct (is_caller c x) eqn:Hc.
      * intros _ _. right. exists x. split_and!; [set_solver | done..].
      * intros [= -> _]. auto.
    + intros H Ht. destruct (IH _ _ H Ht) as [?|(e & ? & ? & ?)]; [by left|].
      right. exists e. split_and!; [set_solver | done..].
Qed.

Lemma scan_nothing_to_stop p c i l st :
  (∀ e, e ∈ l → IsExpired p e = true → is_caller c e = true) →
  (scan p c i l st).2 = None.
Proof.
  revert i st. induction l as [|x l IH]; intros i st Hl; simpl; [done|].
  destruct (IsExpired p x) eqn:Hx; simpl.
  - rewrite (Hl x) by (done || set_solver). apply IH. set_solver.
  - apply IH. set_solver.
Qed.

Lemma sweep_flag_inv fuel c st p st' p' :
  sweep fuel c st p = Ok (st', p') → st' = true →
  st = true ∨
  ∃ w, w ∈ Unused p ∧ IsExpired p w = true ∧ is_caller c w = true.
Proof.
  revert st p. induction fuel as [|fuel IH]; intros st p; simpl;
    destruct (scan p c 0 (Unused p) st) as [st1 [[i e]|]] eqn:Hscan;
    try (intros [= <- <-]; by eapply scan_flag_inv).
  intros H Ht. inv_bind H.
  destruct (IH _ _ H Ht) as [->|(w & Hw & Hx & Hc)].
  - by eapply scan_flag_inv.
  - right. exists w. split_and!; [|by rewrite <-(IsExpired_evict _ _ _ _ w E)|done].
    apply evict_Ok in E as (j & _ & _ & HU & _). rewrite HU in Hw.
    by eapply list_elem_of_delete_inv.
Qed.

(** The timer is left armed only by a sweep that met its caller expired. *)
Lemma Locked_StopExpired_Timer_Some c p p' d :
  Locked_StopExpired c p = Ok p' → Timer p' = Some d →
  in_long (4 * MaxIdleTime p) = true ∧
  ∃ w, w ∈ Unused p ∧ IsExpired p w = true ∧ is_caller c w = true.
Proof.
  unfold Locked_StopExpired. simpl. destruct (Stopping p).
  { by intros [= <-]. }
  intros H HT. inv_bind H. destruct r as [st q].
  pose proof (sweep_Timer _ _ _ _ _ _ E) as HTq.
  pose proof (sweep_frame _ _ _ _ _ _ E) as [].
  destruct st.
  - apply SET_TIMER_Ok in H as [Hl _]. simpl in fr_MaxIdleTime0.
    split; [congruence|].
    by destruct (sweep_flag_inv _ _ _ _ _ _ E eq_refl).
  - injection H as <-. simpl in HTq. congruence.
Qed.

(** X16: a sweep leaves nothing for a second sweep to do: run again on
    the state it has left, for the same caller and at the same time,
    Locked_StopExpired returns that very state. *)
Theorem X16_sweep_twice_is_sweep_once (c : option Worker) (p p1 : Pool) :
  pool_inv p → Locked_StopExpired c p = Ok p1 →
  Locked_StopExpired c p1 = Ok p1.
Proof.
  intros Hinv H. destruct (Stopping p) eqn:Hs.
  { rewrite Locked_StopExpired_stopping in H by done. injection H as <-.
    by rewrite Locked_StopExpired_stopping. }
  pose proof H as Hp1.
  apply Locked_StopExpired_post in H as (st1 & [] & _ & HT); [|done..].
  pose proof sp_frame0 as [].
  assert (∀ w, IsExpired (CancelWaitableTimer p1) w = IsExpired p w) as Hexp.
  { intros w. apply IsExpired_ext; [done | apply sp_expire0]. }
  unfold Locked_StopExpired. simpl. rewrite fr_Stopping0, Hs.
  destruct (scan (CancelWaitableTimer p1) c 0 (Unused p1) false)
    as [st2 r2] eqn:Hscan.
  assert (r2 = None) as ->.
  { change r2 with (st2, r2).2. rewrite <-Hscan.
    by apply scan_nothing_to_stop. }
  assert (sweep (length (Unused p1)) c false (CancelWaitableTimer p1)
          = Ok (st2, CancelWaitableTimer p1)) as ->.
  { destruct (length (Unused p1)); simpl; by rewrite Hscan. }
  simpl.
  assert (st2 = st1) as ->.
  { destruct st1, st2; try done.
    - destruct (Locked_StopExpired_Timer_Some _ _ _ _ Hp1 HT)
        as (_ & w & Hw & Hx & Hc).
      apply scan_None in Hscan as (_ & _ & Hflag).
      apply (Hflag w); [|by rewrite Hexp].
      apply sp_spared0; [|done]. by right; right.
    - destruct (scan_flag_inv _ _ _ _ _ _ _ Hscan eq_refl)
        as [?|(e & He & Hx & Hc)]; [done|].
      symmetry. apply (sp_flag0 e); [by apply sp_Unused0 | | done].
      by rewrite <-Hexp. }
  destruct st1.
  - destruct (Locked_StopExpired_Timer_Some _ _ _ _ Hp1 HT) as (Hl & _).
    unfold SET_TIMER. simpl. rewrite fr_MaxIdleTime0, Hl.
    f_equal. rewrite <-HT. by destruct p1.
  - f_equal. unfold CancelWaitableTimer. rewrite <-HT. by destruct p1.
Qed.

Lemma X16_witness :
  ∃ p1, Locked_StopExpired (Some 1%positive) pool_expired = Ok p1 ∧
    Locked_StopExpired (Some 1%positive) p1 = Ok p1.
Proof.
  assert (∃ p1, Locked_StopExpired (Some 1%positive) pool_expired = Ok p1)
    as [p1 H1] by (eexists; vm_compute; reflexivity).
  exists p1. split; [exact H1|].
  apply (X16_sweep_twice_is_sweep_once (Some 1%positive) pool_expired p1).
  - apply (bool_decide_unpack _). vm_compute. exact I.
  - exact H1.
Defined.
